(** * Pokemon microservices: gateway proxy, search aggregation, health status

    A shallow embedding of three request handlers of the repository:

    - [SearchApi.poke_search]: the [GET /poke/search] handler of the search
      service (fan-out to three backends with [Promise.allSettled], then a
      sequential merge);
    - [Gateway.createProxy]: the reverse proxy of the gateway;
    - [Gateway.status_handler]: the [GET /status] health aggregation.

    JavaScript objects that the handlers build are finite maps ([gmap]) from
    field names to values; payloads received from a backend are JSON values.
    Network calls are not executed: every handler takes the settled outcome
    of each outbound call as an argument, together with the order in which
    the concurrent calls complete.  Logging (the [StandardLogger] calls) has
    no influence on control flow or on responses and is left out, except
    where the evaluation of the arguments of a log call can throw: a
    template literal around a query value, or a property read from a
    value that may be [undefined]. *)

From stdpp Require Import gmap strings list fin_maps pretty sorting.
From Stdlib Require Import ZArith Ascii.

Set Warnings "-register-all".

Local Open Scope string_scope.
Local Open Scope Z_scope.

(** ** JSON values and JavaScript object operations *)

Module Js.

(** A value parsed from a JSON body.  The fields of an object are kept in
    the order of the text. *)
Inductive json : Type :=
| JNull
| JBool (b : bool)
| JNum (n : Z)
| JStr (s : string)
| JArr (xs : list json)
| JObj (kvs : list (string * json)).

(** A query-string value as Express' parser delivers it in [req.query]:
    a string, an array or a nested object. *)
Inductive qval : Type :=
| QStr (s : string)
| QArr (xs : list qval)
| QObj (kvs : list (string * qval)).

(** First binding of a key in an ordered list of fields. *)
Fixpoint assoc {A : Type} (k : string) (kvs : list (string * A)) : option A :=
  match kvs with
  | [] => None
  | (k', v) :: rest => if String.eqb k k' then Some v else assoc k rest
  end.

(** String conversion of a query value, inside a template literal or as
    a property key; [None] when it throws a [TypeError].  Arrays are
    joined with commas, after the conversion of every element.  An object
    prints as [[object Object]] through [Object.prototype.toString]; when
    the query string gave it an entry [toString] of its own, that entry
    is not a function and neither it nor [valueOf] yields a primitive, so
    the conversion throws. *)
Fixpoint toString (q : qval) : option string :=
  match q with
  | QStr s => Some s
  | QArr xs => String.concat "," <$> mapM toString xs
  | QObj kvs =>
      match assoc "toString" kvs with
      | Some _ => None
      | None => Some "[object Object]"
      end
  end.

(** A query parameter that is absent, or whose string conversion does
    not throw. *)
Definition convertible (q : option qval) : Prop :=
  ∀ v, q = Some v → is_Some (toString v).

(** JavaScript truthiness of a possibly missing query value: [undefined]
    and the empty string are falsy, every array and object is truthy. *)
Definition truthy (q : option qval) : bool :=
  match q with
  | None => false
  | Some (QStr s) => negb (String.eqb s "")
  | Some _ => true
  end.

(** [String.prototype.toLowerCase] on ASCII text. *)
Definition lower_ascii (c : ascii) : ascii :=
  let n := nat_of_ascii c in
  if ((65 <=? n) && (n <=? 90))%nat then ascii_of_nat (n + 32) else c.

Fixpoint toLowerCase (s : string) : string :=
  match s with
  | EmptyString => EmptyString
  | String c rest => String (lower_ascii c) (toLowerCase rest)
  end.

(** [s.indexOf(c) !== -1] *)
Fixpoint has_char (c : ascii) (s : string) : bool :=
  match s with
  | EmptyString => false
  | String c' rest => if Ascii.eqb c c' then true else has_char c rest
  end.

(** The part of [s] before the first occurrence of [c] ([s] itself when
    there is none). *)
Fixpoint before_char (c : ascii) (s : string) : string :=
  match s with
  | EmptyString => EmptyString
  | String c' rest =>
      if Ascii.eqb c c' then EmptyString else String c' (before_char c rest)
  end.

(** The characters of a string, each as a one-character string. *)
Fixpoint chars (s : string) : list string :=
  match s with
  | EmptyString => []
  | String c rest => String c EmptyString :: chars rest
  end.

(** [index_from i xs] pairs the elements of [xs] with the decimal keys
    [i], [i+1], ... *)
Fixpoint index_from {A : Type} (i : nat) (xs : list A) : list (string * A) :=
  match xs with
  | [] => []
  | x :: rest => (pretty i, x) :: index_from (S i) rest
  end.

(** Own enumerable properties of a value, as object spread [{...v}] reads
    them: the fields of an object, the indices of an array, the characters
    of a string; [null], booleans and numbers contribute nothing. *)
Definition own_properties (v : json) : list (string * json) :=
  match v with
  | JObj kvs => kvs
  | JArr xs => index_from 0 xs
  | JStr s => index_from 0 (JStr <$> chars s)
  | JNull | JBool _ | JNum _ => []
  end.

(** [assign target props] copies [props] into [target] one after the other,
    a later field overwriting an earlier one of the same name. *)
Definition assign (target : gmap string json) (props : list (string * json))
  : gmap string json :=
  foldl (λ m kv, <[kv.1 := kv.2]> m) target props.

(** [{...target, ...v}] *)
Definition spread (target : gmap string json) (v : json) : gmap string json :=
  assign target (own_properties v).

(** The own property [k] of a value.  In an object that was parsed from
    JSON text the last binding of a key is the one that counts. *)
Definition field (k : string) (v : json) : option json :=
  assoc k (reverse (own_properties v)).

End Js.

(** ** Process environment *)

Module Process.

(** [process.env.KEY || dflt]: an unset or empty variable gives the
    default. *)
Definition env_or (env : gmap string string) (key dflt : string) : string :=
  match env !! key with
  | Some s => if String.eqb s "" then dflt else s
  | None => dflt
  end.

End Process.

(** ** Promises *)

Module Promise.

(** The error object axios rejects with.  [response] is present exactly
    when the backend answered (with a status outside 2xx). *)
Record error_response : Type := ErrorResponse {
  status : Z;
  statusText : string
}.

Record axios_error : Type := AxiosError {
  message : string;
  code : option string;
  response : option error_response
}.

(** A [TypeError] thrown by the handler's own code, as the [catch]
    blocks read it. *)
Definition TypeError (message : string) : axios_error :=
  {| message := message; code := None; response := None |}.

(** The error of a string conversion that throws. *)
Definition conversion_error : axios_error :=
  TypeError "Cannot convert object to primitive value".

(** The response object axios resolves with. *)
Record axios_response : Type := AxiosResponse {
  resp_status : Z;
  resp_headers : gmap string string;
  resp_data : Js.json
}.

(** The outcome of one settled promise. *)
Inductive settled (A : Type) : Type :=
| Fulfilled (value : A)
| Rejected (reason : axios_error).
Arguments Fulfilled {A} value.
Arguments Rejected {A} reason.

(** Continuing a promise with a function that cannot throw. *)
Definition then_ {A B : Type} (f : A → B) (p : settled A) : settled B :=
  match p with
  | Fulfilled v => Fulfilled (f v)
  | Rejected e => Rejected e
  end.

Section Combinators.
Context {A : Type}.

(** Completion events arrive one at a time; [order] lists the index of
    the promise of each event, and every event stores the outcome [g i] of
    its promise in the slot of its index. *)
Definition fill (g : nat → option A) (slots : list (option A))
    (order : list nat) : list (option A) :=
  foldl (λ slots i, <[i := g i]> slots) slots order.

(** The result slots of a combinator over [promises], all empty at the
    start. *)
Definition settle_slots (promises : list A) (order : list nat)
  : list (option A) :=
  fill (λ i, promises !! i) (replicate (length promises) None) order.

(** [Promise.allSettled(promises)]: resolved once every slot is filled,
    with the outcomes in the order of the input array; [None] while some
    promise is still pending. *)
Definition allSettled (promises : list A) (order : list nat)
  : option (list A) :=
  mapM id (settle_slots promises order).
End Combinators.

Section All.
Context {A : Type}.

(** The first completion event, in [order], of a promise that
    rejected. *)
Fixpoint first_rejection (promises : list (settled A)) (order : list nat)
  : option axios_error :=
  match order with
  | [] => None
  | i :: rest =>
      match promises !! i with
      | Some (Rejected e) => Some e
      | _ => first_rejection promises rest
      end
  end.

Definition fulfilled_value (p : settled A) : option A :=
  match p with
  | Fulfilled v => Some v
  | Rejected _ => None
  end.

(** [Promise.all(promises)]: rejected as soon as one promise rejects,
    fulfilled with all the values once every promise has fulfilled;
    [None] while it is pending. *)
Definition all (promises : list (settled A)) (order : list nat)
  : option (settled (list A)) :=
  match first_rejection promises order with
  | Some e => Some (Rejected e)
  | None =>
      slots ← allSettled promises order;
      Fulfilled <$> mapM fulfilled_value slots
  end.
End All.

End Promise.

(** ** utils/logger.js *)

Module Logger.
Import Promise.

(** [measureExecutionTime]: awaits the function, logs the latency and
    returns its result, or logs the failure and throws the same error
    again. *)
Definition measureExecutionTime {A : Type} (asyncFunction : settled A)
  : settled A :=
  match asyncFunction with
  | Fulfilled result => Fulfilled result
  | Rejected error => Rejected error
  end.

End Logger.

(** ** The search service: [GET /poke/search] *)

Module SearchApi.
Import Js Process Promise Logger.

(** The three backends of the aggregation. *)
Inductive backend : Type := Poke | Stats | Images.

(** An outbound [axios.get(url, { timeout })]. *)
Record get_request : Type := GetRequest {
  url : string;
  timeout : Z
}.

(** Handlers run against the network: the state threaded through a handler
    is the list of outbound requests issued so far. *)
Definition io (A : Type) : Type := list get_request → A * list get_request.

Definition ret {A : Type} (a : A) : io A := λ issued, (a, issued).

Definition bind {A B : Type} (m : io A) (k : A → io B) : io B :=
  λ issued, let (a, issued') := m issued in k a issued'.

Notation "'let*' x ':=' m 'in' k" := (bind m (λ x, k))
  (at level 10, x name, m at level 100, k at level 200).

(** The body of a reply. *)
Inductive body : Type :=
| SearchResult (name : qval) (status : gmap string string)
               (data : gmap string json)
| ErrorBody (error : string) (message : option string).

Record reply : Type := Reply {
  statusCode : Z;
  content : body
}.

(** The response under construction in the merge step. *)
Record search_response : Type := SearchResponse {
  name : qval;
  status : gmap string string;
  data : gmap string json
}.

Definition set_status (k v : string) (r : search_response) : search_response :=
  {| name := name r; status := <[k := v]> (status r); data := data r |}.

Definition set_data (k : string) (v : json) (r : search_response) : search_response :=
  {| name := name r; status := status r; data := <[k := v]> (data r) |}.

Section Handler.
(** [process.env] of the search service. *)
Variable env : gmap string string.
(** How each backend's call settles. *)
Variable outcome : backend → settled axios_response.

Definition POKE_API_URL : string :=
  env_or env "POKE_API_URL" "http://localhost:3004".
Definition STATS_API_URL : string :=
  env_or env "STATS_API_URL" "http://localhost:3002".
Definition IMAGES_API_URL : string :=
  env_or env "IMAGES_API_URL" "http://localhost:3003".

(** [axios.get] to a backend: the request is issued, and settles as the
    backend's outcome says.  The URL of the request is a template literal
    around the name; when the conversion of the name throws, the function
    given to [measureExecutionTime] rejects before any request. *)
Definition axios_get (b : backend) (r : get_request)
  : io (settled axios_response) :=
  λ issued, (outcome b, (issued ++ [r])%list).

Definition fetchPokemonData (pokemonName : qval) : io (settled json) :=
  match toString pokemonName with
  | Some text =>
      let* r := axios_get Poke
            {| url := POKE_API_URL ++ "/api/pokemon/" ++ text;
               timeout := 5000 |} in
      ret (measureExecutionTime (then_ resp_data r))
  | None => ret (measureExecutionTime (Rejected conversion_error))
  end.

Definition fetchPokemonStats (pokemonName : qval) : io (settled json) :=
  match toString pokemonName with
  | Some text =>
      let* r := axios_get Stats
            {| url := STATS_API_URL ++ "/api/stats/" ++ text;
               timeout := 5000 |} in
      ret (measureExecutionTime (then_ resp_data r))
  | None => ret (measureExecutionTime (Rejected conversion_error))
  end.

Definition fetchPokemonImage (pokemonName : qval) : io (settled json) :=
  match toString pokemonName with
  | Some text =>
      let* r := axios_get Images
            {| url := IMAGES_API_URL ++ "/api/images/" ++ text;
               timeout := 5000 |} in
      ret (measureExecutionTime (then_ resp_data r))
  | None => ret (measureExecutionTime (Rejected conversion_error))
  end.

(** The merge step, on the three settled results in array order. *)
Definition merge_poke (pokeData : settled json) (r : search_response) : search_response :=
  match pokeData with
  | Fulfilled value =>
      set_status "poke_api" "success"
        {| name := name r; status := status r;
           data := spread (data r) value |}
  | Rejected reason =>
      set_data "poke_api_error" (JStr (message reason))
        (set_status "poke_api" "error" r)
  end.

Definition merge_stats (statsData : settled json) (r : search_response) : search_response :=
  match statsData with
  | Fulfilled value =>
      set_status "stats_api" "success" (set_data "stats" value r)
  | Rejected reason =>
      set_data "stats_error" (JStr (message reason))
        (set_status "stats_api" "error" r)
  end.

Definition merge_image (imageData : settled json) (r : search_response) : search_response :=
  match imageData with
  | Fulfilled value =>
      set_status "images_api" "success" (set_data "image" value r)
  | Rejected reason =>
      set_data "image_error" (JStr (message reason))
        (set_status "images_api" "error" r)
  end.

Definition merge (pokemon_name : qval)
    (pokeData statsData imageData : settled json) : search_response :=
  merge_image imageData
    (merge_stats statsData
      (merge_poke pokeData
        {| name := pokemon_name; status := ∅; data := ∅ |})).

(** The function handed to [measureExecutionTime] by the handler: the
    fan-out, the wait for all three and the merge.  Its first statement
    logs [`Searching for pokemon: ${pokemon_name}`]: when the conversion
    of the name throws, the function rejects there, before the fan-out.
    [order] is the order in which the three calls complete; the result is
    [None] while the handler is still waiting.  Reading the [status] of a
    missing element of the result array throws. *)
Definition search (pokemon_name : qval) (order : list nat)
  : io (option (settled search_response)) :=
  match toString pokemon_name with
  | None => ret (Some (Rejected conversion_error))
  | Some _ =>
      let* p0 := fetchPokemonData pokemon_name in
      let* p1 := fetchPokemonStats pokemon_name in
      let* p2 := fetchPokemonImage pokemon_name in
      ret (match allSettled [p0; p1; p2] order with
           | None => None
           | Some (pokeData :: statsData :: imageData :: _) =>
               Some (Fulfilled
                       (merge pokemon_name pokeData statsData imageData))
           | Some _ =>
               Some (Rejected (TypeError "Cannot read properties of undefined"))
           end)
  end.

(** [app.get('/poke/search', ...)], on the parsed query of the request. *)
Definition poke_search (query : list (string * qval)) (order : list nat)
  : io (option reply) :=
  match assoc "pokemon_name" query with
  | Some pokemon_name =>
      if truthy (Some pokemon_name) then
        let* result := search pokemon_name order in
        ret (match measureExecutionTime <$> result with
             | None => None
             | Some (Fulfilled r) =>
                 Some {| statusCode := 200;
                         content := SearchResult (name r) (status r) (data r) |}
             | Some (Rejected error) =>
                 Some {| statusCode := 500;
                         content := ErrorBody "Internal server error"
                                              (Some (message error)) |}
             end)
      else
        ret (Some {| statusCode := 400;
                     content := ErrorBody "pokemon_name parameter is required"
                                          None |})
  | None =>
      ret (Some {| statusCode := 400;
                   content := ErrorBody "pokemon_name parameter is required"
                                        None |})
  end.
End Handler.

(** *** Vocabulary of the statements about the search service *)

(** The key of a backend in the [status] map. *)
Definition status_key (b : backend) : string :=
  match b with
  | Poke => "poke_api"
  | Stats => "stats_api"
  | Images => "images_api"
  end.

(** The field of [data] that carries the failure message of a backend. *)
Definition error_key (b : backend) : string :=
  match b with
  | Poke => "poke_api_error"
  | Stats => "stats_error"
  | Images => "image_error"
  end.

(** The flag that the [status] map records for a settled call. *)
Definition flag {A : Type} (p : settled A) : string :=
  match p with
  | Fulfilled _ => "success"
  | Rejected _ => "error"
  end.

(** What the merge step reads of a settled backend call: the payload of
    the response, or the message of the error. *)
Definition settled_view (p : settled axios_response) : json + string :=
  match p with
  | Fulfilled r => inl (resp_data r)
  | Rejected e => inr (message e)
  end.

(** The field of [data] that the merge step of the stats or the image
    backend assigns, given how its call settled. *)
Definition assigned_key (b : backend) (p : settled axios_response)
  : option string :=
  match b, p with
  | Poke, _ => None
  | Stats, Fulfilled _ => Some "stats"
  | Images, Fulfilled _ => Some "image"
  | b, Rejected _ => Some (error_key b)
  end.

(** What [fetchPokemonData] and its two siblings resolve with. *)
Definition fetched (outcome : backend → settled axios_response) (b : backend)
  : settled json :=
  then_ resp_data (outcome b).

(** The [status] and [data] objects of a reply of the search handler
    (empty when the reply is not a search result). *)
Definition reply_status (r : option reply) : gmap string string :=
  match r with
  | Some {| content := SearchResult _ status _ |} => status
  | _ => ∅
  end.

Definition reply_data (r : option reply) : gmap string json :=
  match r with
  | Some {| content := SearchResult _ _ data |} => data
  | _ => ∅
  end.

(** The three outbound requests of a search for the name [text], in the
    order of issue. *)
Definition fan_out (env : gmap string string) (text : string)
  : list get_request :=
  [ {| url := POKE_API_URL env ++ "/api/pokemon/" ++ text; timeout := 5000 |};
    {| url := STATS_API_URL env ++ "/api/stats/" ++ text; timeout := 5000 |};
    {| url := IMAGES_API_URL env ++ "/api/images/" ++ text;
       timeout := 5000 |} ].

(** The reply of the handler's [catch] to a name whose string conversion
    throws. *)
Definition conversion_failed : reply :=
  {| statusCode := 500;
     content := ErrorBody "Internal server error"
                          (Some (message conversion_error)) |}.

End SearchApi.

(** ** The gateway: reverse proxy and [GET /status] *)

Module Gateway.
Import Js Process Promise.

(** An inbound Express request, as far as the proxy reads it.  Node gives
    the header names in lower case. *)
Record request : Type := Request {
  method : string;
  originalUrl : string;
  query : list (string * qval);
  headers : gmap string string;
  body : json
}.

(** The configuration object handed to [axios(...)].  A header mapped to
    [None] is a property whose value is [undefined]. *)
Record axios_config : Type := AxiosConfig {
  cfg_method : string;
  cfg_url : string;
  cfg_data : json;
  cfg_params : list (string * qval);
  cfg_headers : gmap string (option string);
  cfg_timeout : Z
}.

(** What a handler hands to [res.status(code).json(body)]. *)
Inductive payload : Type :=
| Relayed (data : json)
| Object (fields : gmap string json).

(** What goes out; [content] is [None] when no body is sent. *)
Record reply : Type := Reply {
  statusCode : Z;
  content : option payload
}.

(** The statuses with which Express' [res.send] drops the body. *)
Definition bodiless (code : Z) : bool :=
  (code =? 204) || (code =? 205) || (code =? 304).

(** [res.status(code).json(body)] in reply to a request with the given
    method.  Node refuses a status outside 100..999 when the head is
    written ([None]: the call throws).  Express sends no body with the
    statuses 204, 205 and 304, and none in reply to a [HEAD] request. *)
Definition res_json (method : string) (code : Z) (body : payload)
  : option reply :=
  if (code <? 100) || (999 <? code) then None
  else Some {| statusCode := code;
               content := if bodiless code || String.eqb method "HEAD"
                          then None else Some body |}.

(** One entry of [status.microservices]; an absent property is [None]. *)
Record service_entry : Type := ServiceEntry {
  entry_status : string;
  entry_url : string;
  response_time : option string;
  entry_data : option json;
  entry_error : option string;
  error_code : option string
}.

Record gateway_entry : Type := GatewayEntry {
  gateway_status : string;
  uptime : Z;
  memory : json;
  timestamp : string
}.

(** The [status] object of the [/status] handler. *)
Record health_report : Type := HealthReport {
  gateway : gateway_entry;
  microservices : gmap string service_entry;
  overall_status : string;
  check_duration_ms : Z
}.

(** What the handlers read from the process and the clock. *)
Record process_info : Type := ProcessInfo {
  process_uptime : Z;
  process_memoryUsage : json;
  now_iso : string;
  startTime : Z;
  endTime : Z
}.

(** *** axios, as far as the proxy depends on it *)

Section Axios.
(** The serializer of the [params] option (axios' [AxiosURLSearchParams]);
    the empty string for an empty object. *)
Variable serialize : list (string * qval) → string.

(** The URL a request is sent to ([buildURL]): the serialized parameters
    are appended to [url] without its fragment, after ["?"] or, when the
    URL already has a query, after ["&"]. *)
Definition buildURL (url : string) (params : list (string * qval)) : string :=
  let serializedParams := serialize params in
  if String.eqb serializedParams "" then url
  else
    let url := before_char "#"%char url in
    url ++ (if has_char "?"%char url then "&" else "?") ++ serializedParams.

Definition effective_url (c : axios_config) : string :=
  buildURL (cfg_url c) (cfg_params c).
End Axios.

(** The headers that go on the wire: properties whose value is [undefined]
    are not sent. *)
Definition sent_headers (c : axios_config) : gmap string string :=
  omap id (cfg_headers c).

(** Serialization of parameters that are all plain strings, without
    escaping: [k1=v1&k2=v2]. *)
Definition serialize_flat (params : list (string * qval)) : string :=
  String.concat "&"
    (List.map (λ kv, kv.1 ++ "=" ++ default "" (toString kv.2)) params).

Section Handlers.
(** [process.env] of the gateway. *)
Variable env : gmap string string.

(** The service registry, in the order of its properties. *)
Definition MICROSERVICES : list (string * string) :=
  [ ("SEARCH_API", env_or env "SEARCH_API_URL" "http://localhost:3001");
    ("STATS_API", env_or env "STATS_API_URL" "http://localhost:3002");
    ("IMAGES_API", env_or env "IMAGES_API_URL" "http://localhost:3003");
    ("POKE_API", env_or env "POKE_API_URL" "http://localhost:3004") ].

(** [`${MICROSERVICES[serviceName]}`]: a name that is not in the registry
    reads as [undefined]. *)
Definition serviceUrl (serviceName : string) : string :=
  default "undefined" (assoc serviceName MICROSERVICES).

(** The request [createProxy] hands to axios. *)
Definition proxy_request (serviceName : string) (req : request)
  : axios_config :=
  let targetUrl := serviceUrl serviceName ++ originalUrl req in
  {| cfg_method := method req;
     cfg_url := targetUrl;
     cfg_data := body req;
     cfg_params := query req;
     cfg_headers := <["host" := None]> (Some <$> headers req);
     cfg_timeout := 30000 |}.

(** The [catch] branch of the proxy, in reply to [req]; [None] when
    [res.status(statusCode).json(...)] throws. *)
Definition proxy_failure (serviceName : string) (req : request)
    (error : axios_error) (now : string) : option reply :=
  let errorMessage :=
    match response error with
    | Some r => "Service error: " ++ pretty (status r) ++ " - " ++ statusText r
    | None => "Network error: " ++ message error
    end in
  let statusCode :=
    match response error with
    | Some r => if status r =? 0 then 503 else status r
    | None => 503
    end in
  res_json (method req) statusCode
    (Object (list_to_map
       [ ("error", JStr "Service unavailable");
         ("service", JStr serviceName);
         ("message", JStr errorMessage);
         ("timestamp", JStr now) ])).

(** [createProxy(serviceName, basePath)] applied to a request: the
    outbound request, and the reply once the call has settled as
    [result]. *)
Definition createProxy (serviceName basePath : string) (req : request)
    (result : settled axios_response) (now : string)
  : axios_config * option reply :=
  (proxy_request serviceName req,
   match result with
   | Fulfilled response =>
       res_json (method req) (resp_status response)
                (Relayed (resp_data response))
   | Rejected error => proxy_failure serviceName req error now
   end).

(** The four proxy routes, in the order they are mounted. *)
Definition routes : list (string * string) :=
  [ ("/poke/search", "SEARCH_API");
    ("/api/pokemon", "POKE_API");
    ("/api/stats", "STATS_API");
    ("/api/images", "IMAGES_API") ].

(** One health check: when the call to [serviceUrl/health] has settled,
    the entry of the service is written into [status.microservices]. *)
Definition health_check (serviceName serviceUrl : string)
    (result : settled axios_response)
    (microservices : gmap string service_entry)
  : gmap string service_entry :=
  match result with
  | Fulfilled response =>
      <[toLowerCase serviceName :=
          {| entry_status := "healthy";
             entry_url := serviceUrl;
             response_time :=
               Some (match resp_headers response !! "x-response-time" with
                     | Some t => if String.eqb t "" then "unknown" else t
                     | None => "unknown"
                     end);
             entry_data := Some (resp_data response);
             entry_error := None;
             error_code := None |}]> microservices
  | Rejected error =>
      <[toLowerCase serviceName :=
          {| entry_status := "unhealthy";
             entry_url := serviceUrl;
             response_time := None;
             entry_data := None;
             entry_error := Some (message error);
             error_code := code error |}]> microservices
  end.

(** [status.microservices] after the health checks have completed in the
    order [order]; [outcome i] is how the call of the [i]-th registry entry
    settles. *)
Definition run_health_checks (outcome : nat → settled axios_response)
    (order : list nat) : gmap string service_entry :=
  foldl (λ microservices i,
           match MICROSERVICES !! i with
           | Some (serviceName, serviceUrl) =>
               health_check serviceName serviceUrl (outcome i) microservices
           | None => microservices
           end) ∅ order.

(** [Object.values(status.microservices).every(s => s.status === 'healthy')] *)
Definition allHealthy (microservices : gmap string service_entry) : bool :=
  forallb (λ service, String.eqb (entry_status service) "healthy")
          (map_to_list microservices).*2.

(** [app.get('/status', ...)]: the reply, or [None] while
    [Promise.all(healthChecks)] is pending. *)
Definition status_handler (proc : process_info)
    (outcome : nat → settled axios_response) (order : list nat)
  : option (Z * health_report) :=
  let gateway_entry :=
    {| gateway_status := "healthy";
       uptime := process_uptime proc;
       memory := process_memoryUsage proc;
       timestamp := now_iso proc |} in
  let healthChecks :=
    (λ _ : string * string, Fulfilled ()) <$> MICROSERVICES in
  let microservices := run_health_checks outcome order in
  match Promise.all healthChecks order with
  | Some (Fulfilled _) =>
      let totalLatency := endTime proc - startTime proc in
      let allHealthy := allHealthy microservices in
      let responseCode := if allHealthy then 200 else 503 in
      Some (responseCode,
            {| gateway := gateway_entry;
               microservices := microservices;
               overall_status := if allHealthy then "healthy" else "degraded";
               check_duration_ms := totalLatency |})
  | _ => None
  end.
End Handlers.

(** *** Vocabulary of the statements about the gateway *)

(** The entry a health check writes for a service, given how the call to
    its [/health] settled. *)
Definition health_entry (serviceUrl : string)
    (result : settled axios_response) : service_entry :=
  match result with
  | Fulfilled response =>
      {| entry_status := "healthy";
         entry_url := serviceUrl;
         response_time :=
           Some (match resp_headers response !! "x-response-time" with
                 | Some t => if String.eqb t "" then "unknown" else t
                 | None => "unknown"
                 end);
         entry_data := Some (resp_data response);
         entry_error := None;
         error_code := None |}
  | Rejected error =>
      {| entry_status := "unhealthy";
         entry_url := serviceUrl;
         response_time := None;
         entry_data := None;
         entry_error := Some (message error);
         error_code := code error |}
  end.

(** The fields of the body of a reply (none when no body is sent or a
    payload is relayed). *)
Definition reply_fields (r : reply) : gmap string json :=
  match content r with
  | Some (Object fields) => fields
  | Some (Relayed _) | None => ∅
  end.

(** The body of the [catch] branch of the proxy. *)
Definition unavailable (serviceName message : string) (fields : gmap string json)
  : Prop :=
  fields !! "error" = Some (JStr "Service unavailable")
  ∧ fields !! "service" = Some (JStr serviceName)
  ∧ fields !! "message" = Some (JStr message)
  ∧ dom fields = {[ "error"; "service"; "message"; "timestamp" ]}.

End Gateway.

(** ** Sample inputs *)

Module Samples.
Import Js Promise.

Definition ok (v : json) : settled axios_response :=
  Fulfilled {| resp_status := 200; resp_headers := ∅; resp_data := v |}.

Definition refused : settled axios_response :=
  Rejected {| message := "connect ECONNREFUSED 127.0.0.1:3002";
              code := Some "ECONNREFUSED";
              response := None |}.

Definition not_found : settled axios_response :=
  Rejected {| message := "Request failed with status code 404";
              code := Some "ERR_BAD_REQUEST";
              response := Some {| status := 404; statusText := "Not Found" |} |}.

Definition not_modified : settled axios_response :=
  Rejected {| message := "Request failed with status code 304";
              code := Some "ERR_BAD_REQUEST";
              response := Some {| status := 304;
                                  statusText := "Not Modified" |} |}.

(** A key as [?pokemon_name[toString]=x] is parsed. *)
Definition unconvertible : qval := QObj [("toString", QStr "x")].

(** A payload of the poke service: it has a [stats] field of its own. *)
Definition pikachu : json :=
  JObj [ ("id", JNum 25);
         ("name", JStr "pikachu");
         ("stats", JArr [JObj [("name", JStr "hp"); ("base_stat", JNum 35)]]) ].

Definition pikachu_stats : json :=
  JObj [("total", JNum 320); ("hp", JNum 35); ("attack", JNum 55)].

Definition pikachu_image : json :=
  JObj [("official_artwork", JStr "https://img/25.png")].

Definition all_up (b : SearchApi.backend) : settled axios_response :=
  match b with
  | SearchApi.Poke => ok pikachu
  | SearchApi.Stats => ok pikachu_stats
  | SearchApi.Images => ok pikachu_image
  end.

Definition stats_down (b : SearchApi.backend) : settled axios_response :=
  match b with
  | SearchApi.Poke => ok pikachu
  | SearchApi.Stats => refused
  | SearchApi.Images => ok pikachu_image
  end.

Definition search_pikachu : list (string * qval) :=
  [("pokemon_name", QStr "pikachu")].

(** [GET /poke/search?pokemon_name=pikachu] as it reaches the gateway. *)
Definition search_request : Gateway.request :=
  {| Gateway.method := "GET";
     Gateway.originalUrl := "/poke/search?pokemon_name=pikachu";
     Gateway.query := [("pokemon_name", QStr "pikachu")];
     Gateway.headers := {[ "host" := "localhost:3000"; "accept" := "*/*" ]};
     Gateway.body := JObj [] |}.

Definition process : Gateway.process_info :=
  {| Gateway.process_uptime := 12;
     Gateway.process_memoryUsage := JObj [("rss", JNum 4096)];
     Gateway.now_iso := "2024-01-15T00:00:00.000Z";
     Gateway.startTime := 1000;
     Gateway.endTime := 1042 |}.

(** The same request made with [HEAD]. *)
Definition head_request : Gateway.request :=
  {| Gateway.method := "HEAD";
     Gateway.originalUrl := "/poke/search?pokemon_name=pikachu";
     Gateway.query := [("pokemon_name", QStr "pikachu")];
     Gateway.headers := {[ "host" := "localhost:3000"; "accept" := "*/*" ]};
     Gateway.body := JObj [] |}.

(** Health outcomes: every service up, and the images service (index 2 of
    the registry) down. *)
Definition health_all_up (i : nat) : settled axios_response :=
  ok (JObj [("status", JStr "healthy")]).

Definition health_images_down (i : nat) : settled axios_response :=
  if decide (i = 2%nat) then refused else health_all_up i.

End Samples.

(** ** JavaScript [Map] and arrays *)

Module JsMap.

(** A [Map] with string keys: its entries in insertion order, every key
    at most once. *)
Section JsMap.
Context {V : Type}.

(** [m.get(k)] *)
Definition get (k : string) (m : list (string * V)) : option V :=
  Js.assoc k m.

(** [m.set(k, v)]: the value of an existing key is replaced in place, a
    new key goes to the end. *)
Fixpoint set (k : string) (v : V) (m : list (string * V))
  : list (string * V) :=
  match m with
  | [] => [(k, v)]
  | (k', v') :: rest =>
      if String.eqb k k' then (k, v) :: rest else (k', v') :: set k v rest
  end.

(** [Array.from(m.keys())], [Array.from(m.values())], [m.size] *)
Definition keys (m : list (string * V)) : list string := m.*1.
Definition values (m : list (string * V)) : list V := m.*2.
Definition size (m : list (string * V)) : Z := Z.of_nat (length m).
End JsMap.

End JsMap.

Module JsArray.

Section JsArray.
Context {A : Type}.

(** A relative index of [slice], given as an integer or [NaN] ([None]):
    [NaN] counts as 0, a negative index counts from the end, and the
    result is clamped to the array. *)
Definition relative_index (len : Z) (i : option Z) : Z :=
  match i with
  | None => 0
  | Some i => if i <? 0 then Z.max (len + i) 0 else Z.min i len
  end.

(** [xs.slice(start, end)] *)
Definition slice (xs : list A) (start end_ : option Z) : list A :=
  let len := Z.of_nat (length xs) in
  let k := relative_index len start in
  let final := relative_index len end_ in
  take (Z.to_nat (final - k)) (drop (Z.to_nat k) xs).

(** [xs.sort(compare)] for a comparator that returns a number: negative
    when its first argument goes first.  The sort is stable: elements that
    compare equal keep their order. *)
Fixpoint insert_sorted (compare : A → A → Z) (x : A) (xs : list A) : list A :=
  match xs with
  | [] => [x]
  | y :: rest =>
      if compare x y <=? 0 then x :: y :: rest
      else y :: insert_sorted compare x rest
  end.

Fixpoint sort (compare : A → A → Z) (xs : list A) : list A :=
  match xs with
  | [] => []
  | x :: rest => insert_sorted compare x (sort compare rest)
  end.
End JsArray.

(** [xs.indexOf(v)] on integers: the first position of [v], or -1. *)
Fixpoint indexOf (v : Z) (xs : list Z) : Z :=
  match xs with
  | [] => -1
  | x :: rest =>
      if x =? v then 0
      else let i := indexOf v rest in if i <? 0 then -1 else i + 1
  end.

(** [a + b] on numbers that are integers or [NaN]. *)
Definition add_nan (a b : option Z) : option Z :=
  match a, b with
  | Some a, Some b => Some (a + b)
  | _, _ => None
  end.

End JsArray.

(** ** The poke service: [GET /api/pokemon/:identifier] and its cache *)

Module PokeApi.
Import Js Promise Logger.

Record cache_entry : Type := CacheEntry {
  data : json;
  timestamp : Z
}.

Definition CACHE_TTL : Z := 300000.

(** Reading a property.  The result is [None] when the access throws (the
    receiver is [null]), [Some None] when the property is [undefined].
    The keys the handler reads are field names of the PokeAPI payload; a
    boolean, a number, a string or an array has none of them. *)
Definition member (k : string) (v : json) : option (option json) :=
  match v with
  | JNull => None
  | JObj kvs => Some (field k (JObj kvs))
  | JBool _ | JNum _ | JStr _ | JArr _ => Some None
  end.

(** [v.k1.k2]: reading [k2] of an [undefined] [v.k1] throws. *)
Definition member2 (k1 k2 : string) (v : json) : option (option json) :=
  o ← member k1 v;
  match o with
  | Some inner => member k2 inner
  | None => None
  end.

(** [v.k.map(f)]: throws unless [v.k] is an array. *)
Definition member_map (k : string) (f : json → option json) (v : json)
  : option json :=
  o ← member k v;
  match o with
  | Some (JArr xs) => JArr <$> mapM f xs
  | _ => None
  end.

(** An object literal, as it is serialized: a property whose value is
    [undefined] is left out. *)
Definition object (fields : list (string * option json)) : json :=
  JObj (omap (λ kv, pair kv.1 <$> kv.2) fields).

(** The selection of the fields of a PokeAPI response; [None] when
    building it throws. *)
Definition pokemonData (response_data : json) : option json :=
  id ← member "id" response_data;
  name ← member "name" response_data;
  height ← member "height" response_data;
  weight ← member "weight" response_data;
  base_experience ← member "base_experience" response_data;
  types ← member_map "types"
    (λ type,
       name ← member2 "type" "name" type;
       slot ← member "slot" type;
       Some (object [("name", name); ("slot", slot)]))
    response_data;
  abilities ← member_map "abilities"
    (λ ability,
       name ← member2 "ability" "name" ability;
       is_hidden ← member "is_hidden" ability;
       slot ← member "slot" ability;
       Some (object [("name", name); ("is_hidden", is_hidden);
                     ("slot", slot)]))
    response_data;
  stats ← member_map "stats"
    (λ stat,
       name ← member2 "stat" "name" stat;
       base_stat ← member "base_stat" stat;
       effort ← member "effort" stat;
       Some (object [("name", name); ("base_stat", base_stat);
                     ("effort", effort)]))
    response_data;
  front_default ← member2 "sprites" "front_default" response_data;
  front_shiny ← member2 "sprites" "front_shiny" response_data;
  back_default ← member2 "sprites" "back_default" response_data;
  back_shiny ← member2 "sprites" "back_shiny" response_data;
  Some (object
    [ ("id", id); ("name", name); ("height", height); ("weight", weight);
      ("base_experience", base_experience);
      ("types", Some types); ("abilities", Some abilities);
      ("stats", Some stats);
      ("sprites", Some (object
         [ ("front_default", front_default); ("front_shiny", front_shiny);
           ("back_default", back_default); ("back_shiny", back_shiny) ])) ]).

(** The body of a reply; the message of an error thrown by the engine is
    not modelled ([None]). *)
Inductive body : Type :=
| Pokemon (data : json)
| Required
| NotFound (pokemon : string)
| Failed (message : option string)
| CacheStats (size : Z) (entries : list string)
| Cleared (entries_removed : Z)
| PokemonList (page : json).

Record reply : Type := Reply {
  statusCode : Z;
  content : body
}.

(** The result of a handler: its reply, the cache it leaves and the URLs
    it called. *)
Record handled : Type := Handled {
  sent : reply;
  cache_after : list (string * cache_entry);
  called : list string
}.

(** [app.get('/api/pokemon/:identifier', ...)].  [now] is the clock when
    the cache is consulted, [stored_at] the clock when a fetched value is
    cached, and [external] how the call to the external API settles. *)
Definition get_pokemon (cache : list (string * cache_entry))
    (identifier : string) (now stored_at : Z)
    (external : settled axios_response) : handled :=
  if String.eqb identifier "" then
    {| sent := {| statusCode := 400; content := Required |};
       cache_after := cache; called := [] |}
  else
    let cacheKey := "pokemon_" ++ toLowerCase identifier in
    let cached := JsMap.get cacheKey cache in
    let hit :=
      match cached with
      | Some entry =>
          if now - timestamp entry <? CACHE_TTL then Some (data entry)
          else None
      | None => None
      end in
    match hit with
    | Some data =>
        {| sent := {| statusCode := 200; content := Pokemon data |};
           cache_after := cache; called := [] |}
    | None =>
        let pokeApiUrl :=
          "https://pokeapi.co/api/v2/pokemon/" ++ toLowerCase identifier in
        match measureExecutionTime
                (match external with
                 | Fulfilled response =>
                     match pokemonData (resp_data response) with
                     | Some data => Fulfilled (inl data)
                     | None => Fulfilled (inr ())
                     end
                 | Rejected error => Rejected error
                 end) with
        | Fulfilled (inl data) =>
            {| sent := {| statusCode := 200; content := Pokemon data |};
               cache_after :=
                 JsMap.set cacheKey
                   {| data := data; timestamp := stored_at |} cache;
               called := [pokeApiUrl] |}
        | Fulfilled (inr _) =>
            {| sent := {| statusCode := 500; content := Failed None |};
               cache_after := cache; called := [pokeApiUrl] |}
        | Rejected error =>
            let not_found :=
              match response error with
              | Some r => status r =? 404
              | None => false
              end in
            {| sent :=
                 if not_found then
                   {| statusCode := 404; content := NotFound identifier |}
                 else
                   {| statusCode := 500;
                      content := Failed (Some (message error)) |};
               cache_after := cache; called := [pokeApiUrl] |}
        end
    end.

(** [app.get('/api/pokemon', ...)].  [limit] and [offset] are the query
    parameters ([None] when absent, which gives the defaults 20 and 0).
    The URL is a template literal around both: when the conversion of one
    of them throws, the function given to [measureExecutionTime] rejects
    before the call.  After the call the handler logs
    [result.results.length], which throws when [results] is [undefined]
    or [null]. *)
Definition list_pokemon (cache : list (string * cache_entry))
    (limit offset : option qval) (external : settled axios_response)
  : handled :=
  match from_option toString (Some "20") limit,
        from_option toString (Some "0") offset with
  | Some limit, Some offset =>
      let pokeApiUrl :=
        "https://pokeapi.co/api/v2/pokemon?limit=" ++ limit
          ++ "&offset=" ++ offset in
      let answer reply :=
        {| sent := reply; cache_after := cache; called := [pokeApiUrl] |} in
      match measureExecutionTime external with
      | Fulfilled response =>
          match
            count ← member "count" (resp_data response);
            next ← member "next" (resp_data response);
            previous ← member "previous" (resp_data response);
            results ← member "results" (resp_data response);
            Some (results,
                  object [ ("count", count); ("next", next);
                           ("previous", previous); ("results", results) ])
          with
          | Some (Some JNull, _) | Some (None, _) | None =>
              answer {| statusCode := 500; content := Failed None |}
          | Some (Some _, result) =>
              answer {| statusCode := 200; content := PokemonList result |}
          end
      | Rejected error =>
          answer {| statusCode := 500;
                    content := Failed (Some (message error)) |}
      end
  | _, _ =>
      {| sent := {| statusCode := 500;
                    content := Failed (Some (message conversion_error)) |};
         cache_after := cache; called := [] |}
  end.

(** The periodic cleanup, run at time [now]: every entry older than the
    time to live is deleted. *)
Definition cleanup (now : Z) (cache : list (string * cache_entry))
  : list (string * cache_entry) :=
  filter (λ kv, ¬ (now - timestamp kv.2 > CACHE_TTL)) cache.

(** [app.get('/api/cache/stats', ...)] *)
Definition cache_stats (cache : list (string * cache_entry)) : handled :=
  {| sent := {| statusCode := 200;
                content := CacheStats (JsMap.size cache) (JsMap.keys cache) |};
     cache_after := cache; called := [] |}.

(** [app.delete('/api/cache', ...)] *)
Definition clear_cache (cache : list (string * cache_entry)) : handled :=
  let sizeBefore := JsMap.size cache in
  {| sent := {| statusCode := 200; content := Cleared sizeBefore |};
     cache_after := []; called := [] |}.

(** *** Vocabulary of the statements about the poke service *)

(** The fields that the service selects. *)
Definition selected_fields : list string :=
  [ "id"; "name"; "height"; "weight"; "base_experience";
    "types"; "abilities"; "stats"; "sprites" ].

Definition is_array (o : option json) : Prop := ∃ xs, o = Some (JArr xs).

(** A payload from which the selection can be built has its three lists
    and a [sprites] value that is not [null]. *)
Definition has_lists (response_data : json) : Prop :=
  is_array (field "types" response_data)
  ∧ is_array (field "abilities" response_data)
  ∧ is_array (field "stats" response_data)
  ∧ ∃ sprites, field "sprites" response_data = Some sprites ∧ sprites ≠ JNull.

(** What the handler finds in the cache: the data of an entry younger than
    the time to live. *)
Definition served (cache : list (string * cache_entry)) (identifier : string)
    (now : Z) : option json :=
  match JsMap.get ("pokemon_" ++ toLowerCase identifier) cache with
  | Some entry =>
      if now - timestamp entry <? CACHE_TTL then Some (data entry) else None
  | None => None
  end.

End PokeApi.

(** ** The stats service *)

Module StatsApi.
Import Js.

Record pokemon_stats : Type := PokemonStats {
  name : string;
  total : Z;
  hp : Z;
  attack : Z;
  defense : Z;
  sp_attack : Z;
  sp_defense : Z;
  speed : Z;
  generation : Z;
  legendary : bool;
  type1 : option string;
  type2 : option json
}.

Definition sample (name : string)
    (total hp attack defense sp_attack sp_defense speed : Z)
    (legendary : bool) : pokemon_stats :=
  {| name := name; total := total; hp := hp; attack := attack;
     defense := defense; sp_attack := sp_attack; sp_defense := sp_defense;
     speed := speed; generation := 1; legendary := legendary;
     type1 := None; type2 := None |}.

Definition samplePokemonStats : list pokemon_stats :=
  [ sample "pikachu" 320 35 55 40 50 50 90 false;
    sample "charizard" 534 78 84 78 109 85 100 false;
    sample "bulbasaur" 318 45 49 49 65 65 45 false;
    sample "squirtle" 314 44 48 65 50 64 43 false;
    sample "mewtwo" 680 106 110 90 154 90 130 true;
    sample "mew" 600 100 100 100 100 100 100 true ].

(** The state of the service. *)
Record state : Type := State {
  pokemonStatsDB : list (string * pokemon_stats);
  isDataLoaded : bool
}.

(** [initializeStatsData]: the samples are written into the database. *)
Definition initializeStatsData (st : state) : state :=
  {| pokemonStatsDB :=
       foldl (λ db pokemon, JsMap.set (toLowerCase (name pokemon)) pokemon db)
             (pokemonStatsDB st) samplePokemonStats;
     isDataLoaded := true |}.

(** The state once the module is loaded. *)
Definition startup : state :=
  initializeStatsData {| pokemonStatsDB := []; isDataLoaded := false |}.

(** The random draws of one [generateMockStats]: each [base_*] is a
    [Math.floor(Math.random() * 100)], [gen] a
    [Math.floor(Math.random() * 8)], [rare] a [Math.random() > 0.95]. *)
Record draws : Type := Draws {
  base_hp : Z;
  base_attack : Z;
  base_defense : Z;
  base_sp_attack : Z;
  base_sp_defense : Z;
  base_speed : Z;
  gen : Z;
  rare : bool
}.

Definition generateMockStats (pokemonName : string) (d : draws)
  : pokemon_stats :=
  let hp := base_hp d + 20 in
  let attack := base_attack d + 20 in
  let defense := base_defense d + 20 in
  let sp_attack := base_sp_attack d + 20 in
  let sp_defense := base_sp_defense d + 20 in
  let speed := base_speed d + 20 in
  let total :=
    foldl (λ sum stat, sum + stat) 0
          [hp; attack; defense; sp_attack; sp_defense; speed] in
  {| name := toLowerCase pokemonName;
     total := total;
     hp := hp; attack := attack; defense := defense;
     sp_attack := sp_attack; sp_defense := sp_defense; speed := speed;
     generation := gen d + 1;
     legendary := rare d;
     type1 := Some "normal";
     type2 := Some JNull |}.

Inductive body : Type :=
| Stats (stats : pokemon_stats)
| Required
| Listing (total : Z) (offset limit : option Z) (data : list pokemon_stats)
| Loaded (pokemon_count : Z).

Record reply : Type := Reply {
  statusCode : Z;
  content : body
}.

(** [app.get('/api/stats/:pokemonName', ...)] *)
Definition get_stats (st : state) (pokemonName : string) (d : draws)
  : reply * state :=
  if String.eqb pokemonName "" then
    ({| statusCode := 400; content := Required |}, st)
  else
    let st := if isDataLoaded st then st else initializeStatsData st in
    let pokemonKey := toLowerCase pokemonName in
    match JsMap.get pokemonKey (pokemonStatsDB st) with
    | None =>
        let mockStats := generateMockStats pokemonName d in
        ({| statusCode := 200; content := Stats mockStats |},
         {| pokemonStatsDB := JsMap.set pokemonKey mockStats (pokemonStatsDB st);
            isDataLoaded := isDataLoaded st |})
    | Some stats =>
        ({| statusCode := 200; content := Stats stats |}, st)
    end.

(** The [generation] parameter of the listing, as the loose comparison
    [p.generation == generation] reads it: absent or empty (no filter), a
    text that denotes the integer [n], or a text that equals no
    generation. *)
Inductive generation_filter : Type :=
| AnyGeneration
| Generation (n : Z)
| NoGeneration.

(** [app.get('/api/stats', ...)].  [offset] and [limit] are the values of
    [parseInt(offset)] and [parseInt(limit)], [None] for [NaN]; they and
    [generation_query] are what the conversions of the parameters gave,
    so a parameter whose conversion throws is no input of this
    definition. *)
Definition list_stats (st : state) (offset limit : option Z)
    (generation_query : generation_filter) (legendary_query : option qval)
  : reply * state :=
  let st := if isDataLoaded st then st else initializeStatsData st in
  let pokemonList := JsMap.values (pokemonStatsDB st) in
  let pokemonList :=
    match generation_query with
    | AnyGeneration => pokemonList
    | Generation n =>
        List.filter (λ p, generation p =? n) pokemonList
    | NoGeneration => List.filter (λ _, false) pokemonList
    end in
  let pokemonList :=
    match legendary_query with
    | None => pokemonList
    | Some q =>
        let isLegendary :=
          match q with
          | QStr s => String.eqb s "true"
          | _ => false
          end in
        List.filter (λ p, Bool.eqb (legendary p) isLegendary) pokemonList
    end in
  let startIndex := offset in
  let endIndex := JsArray.add_nan startIndex limit in
  let paginatedList := JsArray.slice pokemonList startIndex endIndex in
  ({| statusCode := 200;
      content := Listing (Z.of_nat (length pokemonList)) offset limit
                         paginatedList |},
   st).

(** The statistics that the analysis reads by name. *)
Inductive stat : Type :=
| Total | Hp | Attack | Defense | SpAttack | SpDefense | Speed.

Definition stat_name (s : stat) : string :=
  match s with
  | Total => "total"
  | Hp => "hp"
  | Attack => "attack"
  | Defense => "defense"
  | SpAttack => "sp_attack"
  | SpDefense => "sp_defense"
  | Speed => "speed"
  end.

(** [pokemon[stat]] *)
Definition stat_value (s : stat) (p : pokemon_stats) : Z :=
  match s with
  | Total => total p
  | Hp => hp p
  | Attack => attack p
  | Defense => defense p
  | SpAttack => sp_attack p
  | SpDefense => sp_defense p
  | Speed => speed p
  end.

Definition calculateRanking (allPokemon : list pokemon_stats) (s : stat)
    (value : Z) : Z :=
  let sortedValues :=
    JsArray.sort (λ a b, b - a) (stat_value s <$> allPokemon) in
  JsArray.indexOf value sortedValues + 1.

(** An entry of the strengths or weaknesses of a pokemon. *)
Record rated : Type := Rated {
  rated_stat : stat;
  value : Z;
  level : string
}.

Definition base_stats : list stat :=
  [Hp; Attack; Defense; SpAttack; SpDefense; Speed].

Definition identifyStrengths (pokemon : pokemon_stats) : list rated :=
  let strengths :=
    foldl (λ strengths s,
             if stat_value s pokemon >? 80 then
               (strengths ++ [ {| rated_stat := s;
                                  value := stat_value s pokemon;
                                  level := "high" |} ])%list
             else if stat_value s pokemon >? 60 then
               (strengths ++ [ {| rated_stat := s;
                                  value := stat_value s pokemon;
                                  level := "moderate" |} ])%list
             else strengths)
          [] base_stats in
  JsArray.sort (λ a b, value b - value a) strengths.

Definition identifyWeaknesses (pokemon : pokemon_stats) : list rated :=
  let weaknesses :=
    foldl (λ weaknesses s,
             if stat_value s pokemon <? 40 then
               (weaknesses ++ [ {| rated_stat := s;
                                   value := stat_value s pokemon;
                                   level := "low" |} ])%list
             else if stat_value s pokemon <? 60 then
               (weaknesses ++ [ {| rated_stat := s;
                                   value := stat_value s pokemon;
                                   level := "moderate" |} ])%list
             else weaknesses)
          [] base_stats in
  JsArray.sort (λ a b, value a - value b) weaknesses.

(** [app.post('/api/stats/load-csv', ...)]: the database is emptied and
    the samples are loaded again. *)
Definition load_csv (st : state) : reply * state :=
  let st := initializeStatsData
              {| pokemonStatsDB := []; isDataLoaded := isDataLoaded st |} in
  ({| statusCode := 200;
      content := Loaded (JsMap.size (pokemonStatsDB st)) |},
   st).

(** *** Vocabulary of the statements about the stats service *)

(** Draws that [Math.floor(Math.random() * n)] can give. *)
Definition in_range (d : draws) : Prop :=
  0 ≤ base_hp d < 100 ∧ 0 ≤ base_attack d < 100
  ∧ 0 ≤ base_defense d < 100 ∧ 0 ≤ base_sp_attack d < 100
  ∧ 0 ≤ base_sp_defense d < 100 ∧ 0 ≤ base_speed d < 100
  ∧ 0 ≤ gen d < 8.

(** The state in which a handler works: the samples are loaded first if
    they were not. *)
Definition loaded (st : state) : state :=
  if isDataLoaded st then st else initializeStatsData st.

(** The entry of a statistic among the strengths: above 80 it is high,
    above 60 moderate, otherwise it is no strength. *)
Definition strength (pokemon : pokemon_stats) (s : stat) : option rated :=
  if stat_value s pokemon >? 80 then
    Some {| rated_stat := s; value := stat_value s pokemon; level := "high" |}
  else if stat_value s pokemon >? 60 then
    Some {| rated_stat := s; value := stat_value s pokemon;
            level := "moderate" |}
  else None.

(** The entry of a statistic among the weaknesses: below 40 it is low,
    below 60 moderate, otherwise it is no weakness. *)
Definition weakness (pokemon : pokemon_stats) (s : stat) : option rated :=
  if stat_value s pokemon <? 40 then
    Some {| rated_stat := s; value := stat_value s pokemon; level := "low" |}
  else if stat_value s pokemon <? 60 then
    Some {| rated_stat := s; value := stat_value s pokemon;
            level := "moderate" |}
  else None.

(** The pokemon that a listing selects before it cuts out a page. *)
Definition selected (st : state) (generation_query : generation_filter)
    (legendary_query : option qval) : list pokemon_stats :=
  let pokemonList := JsMap.values (pokemonStatsDB (loaded st)) in
  let pokemonList :=
    match generation_query with
    | AnyGeneration => pokemonList
    | Generation n => List.filter (λ p, generation p =? n) pokemonList
    | NoGeneration => List.filter (λ _, false) pokemonList
    end in
  match legendary_query with
  | None => pokemonList
  | Some q =>
      List.filter
        (λ p, Bool.eqb (legendary p)
                (match q with QStr s => String.eqb s "true" | _ => false end))
        pokemonList
  end.

(** The [data] of a reply of the listing. *)
Definition listed (r : reply) : list pokemon_stats :=
  match content r with
  | Listing _ _ _ data => data
  | _ => []
  end.

(** Whether a pokemon passes the filters of a listing. *)
Definition passes (generation_query : generation_filter)
    (legendary_query : option qval) (p : pokemon_stats) : Prop :=
  match generation_query with
  | AnyGeneration => True
  | Generation n => generation p = n
  | NoGeneration => False
  end
  ∧ match legendary_query with
    | None => True
    | Some q =>
        legendary p
        = match q with QStr s => String.eqb s "true" | _ => false end
    end.

End StatsApi.

(** ** The images service *)

Module ImagesApi.
Import Js Promise Logger.

(** [s.split(c)] for a one-character separator. *)
Fixpoint split (c : ascii) (s : string) : list string :=
  match s with
  | EmptyString => [EmptyString]
  | String c' rest =>
      if Ascii.eqb c c' then EmptyString :: split c rest
      else match split c rest with
           | piece :: pieces => String c' piece :: pieces
           | [] => [String c' EmptyString]
           end
  end.

(** White space of ASCII text: tab, line feed, vertical tab, form feed,
    carriage return and space. *)
Definition is_space (c : ascii) : bool :=
  let n := nat_of_ascii c in
  ((9 <=? n) && (n <=? 13) || (n =? 32))%nat.

Fixpoint trimStart (s : string) : string :=
  match s with
  | EmptyString => EmptyString
  | String c rest => if is_space c then trimStart rest else s
  end.

Fixpoint trimEnd (s : string) : string :=
  match s with
  | EmptyString => EmptyString
  | String c rest =>
      match trimEnd rest with
      | EmptyString => if is_space c then EmptyString else String c EmptyString
      | rest' => String c rest'
      end
  end.

(** [s.trim()] *)
Definition trim (s : string) : string := trimEnd (trimStart s).

(** A query value as it is written into a JSON body. *)
Fixpoint qval_json (q : qval) : json :=
  match q with
  | QStr s => JStr s
  | QArr xs => JArr (List.map qval_json xs)
  | QObj kvs => JObj (List.map (λ kv, (kv.1, qval_json kv.2)) kvs)
  end.

(** The record of a pokemon in the image database. *)
Record image_data : Type := ImageData {
  name : string;
  images : list (string * string);
  metadata : list (string * json)
}.

Definition sprites : string :=
  "https://raw.githubusercontent.com/PokeAPI/sprites/master/sprites/pokemon/".

(** The five image URLs of the sprite with number [id]. *)
Definition image_urls (id : string) : list (string * string) :=
  [ ("official_artwork", sprites ++ "other/official-artwork/" ++ id ++ ".png");
    ("front_default", sprites ++ id ++ ".png");
    ("front_shiny", sprites ++ "shiny/" ++ id ++ ".png");
    ("back_default", sprites ++ "back/" ++ id ++ ".png");
    ("back_shiny", sprites ++ "back/shiny/" ++ id ++ ".png") ].

Definition sample (name : string) (id : string) (size_kb : Z) : image_data :=
  {| name := name;
     images := image_urls id;
     metadata := [ ("resolution", JStr "475x475"); ("format", JStr "png");
                   ("size_kb", JNum size_kb);
                   ("last_updated", JStr "2024-01-15") ] |}.

Definition sampleImageData : list image_data :=
  [ sample "pikachu" "25" 45; sample "charizard" "6" 62;
    sample "bulbasaur" "1" 38 ].

(** [initializeImageData], on the empty database of the module. *)
Definition initializeImageData (pokemonImages : list (string * image_data))
  : list (string * image_data) :=
  foldl (λ db pokemon, JsMap.set (toLowerCase (name pokemon)) pokemon db)
        pokemonImages sampleImageData.

Definition startup : list (string * image_data) := initializeImageData [].

(** [generateFallbackImages]; [pokemonId] is the random number drawn
    ([Math.floor(Math.random() * 1000) + 1]) and [today] the date of the
    day. *)
Definition generateFallbackImages (pokemonName : string) (pokemonId : Z)
    (today : string) : image_data :=
  {| name := toLowerCase pokemonName;
     images := image_urls (pretty pokemonId);
     metadata := [ ("resolution", JStr "475x475"); ("format", JStr "png");
                   ("size_kb", JStr "unknown");
                   ("last_updated", JStr today);
                   ("source", JStr "fallback_generated") ] |}.

(** The verdict on one image URL. *)
Record validated : Type := Validated {
  url : string;
  status : string;
  content_type : option string;
  content_length : option string;
  error : option string
}.

(** [validateImageUrls]: one [HEAD] request per image, one after the
    other; [head i] is how the [i]-th request settles.  The result has the
    verdicts and the URLs that were called. *)
Fixpoint validate_from (i : nat) (head : nat → settled axios_response)
    (images : list (string * string)) : list (string * validated) :=
  match images with
  | [] => []
  | (key, url) :: rest =>
      (key,
       match head i with
       | Fulfilled response =>
           {| url := url; status := "available";
              content_type := resp_headers response !! "content-type";
              content_length := resp_headers response !! "content-length";
              error := None |}
       | Rejected e =>
           {| url := url; status := "unavailable";
              content_type := None; content_length := None;
              error := Some (message e) |}
       end) :: validate_from (S i) head rest
  end.

Definition validateImageUrls (head : nat → settled axios_response)
    (images : list (string * string)) : list (string * validated) :=
  validate_from 0 head images.

Inductive body : Type :=
| Images (name : string) (images : list (string * option validated))
         (metadata : gmap string json)
| Required
| Listing (total : Z) (offset limit : option Z) (data : list image_data)
| Failed.

Record reply : Type := Reply {
  statusCode : Z;
  content : body
}.

(** The result of a handler: its reply, the database it leaves and the
    URLs it sent a [HEAD] request to. *)
Record handled : Type := Handled {
  sent : reply;
  db_after : list (string * image_data);
  called : list string
}.

(** [{ [type]: validatedImages[type] }] as it is serialized: the verdict
    of the image named [type] when there is one; [__proto__] reads the
    prototype of the object, an empty object ([Some None] stands for it);
    any other name gives [undefined], which is left out. *)
Definition select_image (key : string)
    (validatedImages : list (string * validated))
  : list (string * option validated) :=
  match assoc key validatedImages with
  | Some v => [(key, Some v)]
  | None => if String.eqb key "__proto__" then [(key, None)] else []
  end.

(** [app.get('/api/images/:pokemonName', ...)].  [type] and [format] are
    the query parameters ([None] when absent), [pokemonId] and [today]
    what a fallback would draw, [now] the timestamp of the validation.
    For a type other than [all] the reply is built with the computed key
    [[type]]: when the conversion of the type to a property key throws,
    the handler replies 500, after the fallback has been stored and the
    URLs have been checked. *)
Definition get_images (pokemonImages : list (string * image_data))
    (pokemonName : string) (type format : option qval)
    (pokemonId : Z) (today now : string)
    (head : nat → settled axios_response) : handled :=
  let type := default (QStr "all") type in
  let format := default (QStr "json") format in
  if String.eqb pokemonName "" then
    {| sent := {| statusCode := 400; content := Required |};
       db_after := pokemonImages; called := [] |}
  else
    let pokemonKey := toLowerCase pokemonName in
    let (pokemonData, pokemonImages) :=
      match JsMap.get pokemonKey pokemonImages with
      | Some pokemonData => (pokemonData, pokemonImages)
      | None =>
          let pokemonData := generateFallbackImages pokemonName pokemonId today in
          (pokemonData, JsMap.set pokemonKey pokemonData pokemonImages)
      end in
    let validatedImages := validateImageUrls head (images pokemonData) in
    let selected :=
      match type with
      | QStr "all" => Some ((λ kv, (kv.1, Some kv.2)) <$> validatedImages)
      | _ => key ← toString type; Some (select_image key validatedImages)
      end in
    {| sent :=
         match selected with
         | Some selected =>
             {| statusCode := 200;
                content :=
                  Images (name pokemonData) selected
                    (<["format" := qval_json format]>
                       (<["requested_type" := qval_json type]>
                          (<["validation_timestamp" := JStr now]>
                             (spread ∅ (JObj (metadata pokemonData)))))) |}
         | None => {| statusCode := 500; content := Failed |}
         end;
       db_after := pokemonImages;
       called := (images pokemonData).*2 |}.

(** [app.get('/api/images', ...)].  [offset] and [limit] are the values of
    [parseInt(offset)] and [parseInt(limit)] ([None] for [NaN]);
    [pokemonId i] is the number a fallback for the [i]-th requested name
    would draw. *)
Definition list_images (pokemonImages : list (string * image_data))
    (pokemon_names : option qval) (offset limit : option Z)
    (pokemonId : nat → Z) (today : string) : handled :=
  let listing data :=
    {| sent := {| statusCode := 200;
                  content := Listing (JsMap.size pokemonImages) offset limit
                                     data |};
       db_after := pokemonImages; called := [] |} in
  if truthy pokemon_names then
    match pokemon_names with
    | Some (QStr s) =>
        let names := (λ name, toLowerCase (trim name)) <$> split "," s in
        listing (imap (λ i name,
                         match JsMap.get name pokemonImages with
                         | Some data => data
                         | None => generateFallbackImages name (pokemonId i) today
                         end) names)
    | _ =>
        {| sent := {| statusCode := 500; content := Failed |};
           db_after := pokemonImages; called := [] |}
    end
  else
    let allPokemon := JsMap.values pokemonImages in
    let startIndex := offset in
    let endIndex := JsArray.add_nan startIndex limit in
    listing (JsArray.slice allPokemon startIndex endIndex).

(** *** Vocabulary of the statements about the images service *)

(** The parts of a reply that carries images. *)
Definition reply_name (r : reply) : option string :=
  match content r with
  | Images name _ _ => Some name
  | _ => None
  end.

Definition reply_images (r : reply) : list (string * option validated) :=
  match content r with
  | Images _ images _ => images
  | _ => []
  end.

Definition reply_metadata (r : reply) : gmap string json :=
  match content r with
  | Images _ _ metadata => metadata
  | _ => ∅
  end.

Definition listed (r : reply) : list image_data :=
  match content r with
  | Listing _ _ _ data => data
  | _ => []
  end.

End ImagesApi.

(** ** Routing

    The route tables of the services as they are registered with
    [app.get], [app.post] and [app.use], and the way the router picks a
    handler.  The middlewares registered before the routes ([helmet],
    [cors], [express.json] and the latency middleware) are not part of
    the tables; [gateway_app] puts them in front of the table of the
    gateway. *)

Module Express.
Import Js.

(** A piece of a route path: a literal or a named parameter. *)
Inductive segment : Type :=
| Lit (s : string)
| Param (name : string).

(** A registered route: [app.get(path, handler)] and its likes match the
    whole path and one method, [app.use(path, handler)] matches every
    method and every path under the prefix. *)
Inductive route (H : Type) : Type :=
| Verb (method : string) (pattern : list segment) (handler : H)
| Use (prefix : list string) (handler : H).
Arguments Verb {H} method pattern handler.
Arguments Use {H} prefix handler.

(** What the router does with a request: it runs a handler with the
    parameters of the path, fails on a parameter that cannot be decoded, or
    finds no route. *)
Inductive routed (H : Type) : Type :=
| Run (handler : H) (params : list (string * string))
| BadParam
| Unmatched.
Arguments Run {H} handler params.
Arguments BadParam {H}.
Arguments Unmatched {H}.

(** The pieces of a request path between its slashes; one slash at the end
    is ignored. *)
Definition pieces (path : string) : list string :=
  let ps := match ImagesApi.split "/" path with
            | EmptyString :: ps => ps
            | ps => ps
            end in
  match reverse ps with
  | EmptyString :: rest => reverse rest
  | _ => ps
  end.

(** Literals are compared without regard to case. *)
Definition same_literal (s piece : string) : bool :=
  String.eqb (toLowerCase s) (toLowerCase piece).

(** Matching a whole path; the result lists the raw values of the
    parameters.  A parameter matches one piece that is not empty. *)
Fixpoint match_path (pattern : list segment) (path : list string)
  : option (list (string * string)) :=
  match pattern, path with
  | [], [] => Some []
  | Lit s :: pattern, piece :: path =>
      if same_literal s piece then match_path pattern path else None
  | Param name :: pattern, piece :: path =>
      if String.eqb piece "" then None
      else cons (name, piece) <$> match_path pattern path
  | _, _ => None
  end.

(** Matching a prefix of the path. *)
Fixpoint match_prefix (prefix path : list string) : bool :=
  match prefix, path with
  | [], _ => true
  | s :: prefix, piece :: path =>
      same_literal s piece && match_prefix prefix path
  | _ :: _, [] => false
  end.

(** A route for [GET] also serves [HEAD]. *)
Definition serves (route_method method : string) : bool :=
  String.eqb route_method method
  || (String.eqb route_method "GET" && String.eqb method "HEAD").

Section Router.
Context {H : Type}.
(** [decodeURIComponent], [None] when it throws. *)
Variable decode : string → option string.

Definition decode_params (params : list (string * string))
  : option (list (string * string)) :=
  mapM (λ kv, pair kv.1 <$> decode kv.2) params.

(** The routes are tried in the order of registration; every handler of
    the services answers the request itself, so the first match decides. *)
Fixpoint dispatch (routes : list (route H)) (method : string)
    (path : list string) : routed H :=
  match routes with
  | [] => Unmatched
  | Verb m pattern handler :: rest =>
      if serves m method then
        match match_path pattern path with
        | Some params =>
            match decode_params params with
            | Some params => Run handler params
            | None => BadParam
            end
        | None => dispatch rest method path
        end
      else dispatch rest method path
  | Use prefix handler :: rest =>
      if match_prefix prefix path then Run handler []
      else dispatch rest method path
  end.
End Router.

(** The handlers of the images service, in the order of registration. *)
Inductive images_handler : Type :=
| GET_POKEMON_IMAGES
| GET_MULTIPLE_IMAGES
| SEARCH_IMAGES
| GET_IMAGE_STATS
| IMAGES_HEALTH_CHECK.

Definition images_routes : list (route images_handler) :=
  [ Verb "GET" [Lit "api"; Lit "images"; Param "pokemonName"] GET_POKEMON_IMAGES;
    Verb "GET" [Lit "api"; Lit "images"] GET_MULTIPLE_IMAGES;
    Verb "GET" [Lit "api"; Lit "images"; Lit "search"] SEARCH_IMAGES;
    Verb "GET" [Lit "api"; Lit "images"; Lit "stats"] GET_IMAGE_STATS;
    Verb "GET" [Lit "health"] IMAGES_HEALTH_CHECK ].

(** The handlers of the stats service. *)
Inductive stats_handler : Type :=
| GET_POKEMON_STATS
| GET_ALL_STATS
| ANALYZE_POKEMON_STATS
| LOAD_CSV_DATA
| STATS_HEALTH_CHECK.

Definition stats_routes : list (route stats_handler) :=
  [ Verb "GET" [Lit "api"; Lit "stats"; Param "pokemonName"] GET_POKEMON_STATS;
    Verb "GET" [Lit "api"; Lit "stats"] GET_ALL_STATS;
    Verb "GET" [Lit "api"; Lit "stats"; Lit "analysis"; Param "pokemonName"]
         ANALYZE_POKEMON_STATS;
    Verb "POST" [Lit "api"; Lit "stats"; Lit "load-csv"] LOAD_CSV_DATA;
    Verb "GET" [Lit "health"] STATS_HEALTH_CHECK ].

(** The handlers of the gateway, and the two ways in which a request is
    answered outside them: by [cors] and by the error handler. *)
Inductive gateway_handler : Type :=
| CORS_PREFLIGHT
| ROOT_INFO
| PROXY_REQUEST (serviceName : string)
| HEALTH_STATUS
| GET_METRICS
| LOAD_TEST
| HEALTH_CHECK
| GLOBAL_ERROR
| NOT_FOUND.

Definition gateway_routes : list (route gateway_handler) :=
  [ Verb "GET" [] ROOT_INFO ]
  ++ ((λ mount, Use (pieces mount.1) (PROXY_REQUEST mount.2))
        <$> Gateway.routes)
  ++ [ Verb "GET" [Lit "status"] HEALTH_STATUS;
       Verb "GET" [Lit "metrics"] GET_METRICS;
       Verb "GET" [Lit "test"; Lit "load"; Param "pokemonName"] LOAD_TEST;
       Verb "GET" [Lit "health"] HEALTH_CHECK;
       Use [] NOT_FOUND ].


End Express.

(** ** More sample inputs *)

Module MoreSamples.
Import Js Promise.

(** A response of the external API, reduced to what the poke service
    reads. *)
Definition pokeapi_pikachu : json :=
  JObj [ ("id", JNum 25); ("name", JStr "pikachu");
         ("height", JNum 4); ("weight", JNum 60);
         ("base_experience", JNum 112);
         ("types", JArr [JObj [("slot", JNum 1);
                               ("type", JObj [("name", JStr "electric")])]]);
         ("abilities", JArr [JObj [("ability", JObj [("name", JStr "static")]);
                                   ("is_hidden", JBool false);
                                   ("slot", JNum 1)]]);
         ("stats", JArr [JObj [("base_stat", JNum 35); ("effort", JNum 0);
                               ("stat", JObj [("name", JStr "hp")])]]);
         ("sprites", JObj [("front_default", JStr "https://img/25.png")]);
         ("order", JNum 35) ].

Definition fresh_entry : PokeApi.cache_entry :=
  {| PokeApi.data := JObj [("id", JNum 6)]; PokeApi.timestamp := 1000 |}.

Definition mock_draws : StatsApi.draws :=
  {| StatsApi.base_hp := 0; StatsApi.base_attack := 99;
     StatsApi.base_defense := 50; StatsApi.base_sp_attack := 7;
     StatsApi.base_sp_defense := 42; StatsApi.base_speed := 13;
     StatsApi.gen := 7; StatsApi.rare := false |}.

Definition other_draws : StatsApi.draws :=
  {| StatsApi.base_hp := 1; StatsApi.base_attack := 2;
     StatsApi.base_defense := 3; StatsApi.base_sp_attack := 4;
     StatsApi.base_sp_defense := 5; StatsApi.base_speed := 6;
     StatsApi.gen := 0; StatsApi.rare := true |}.

(** [HEAD] requests to the image host: the third image is missing. *)
Definition head_third_missing (i : nat) : settled axios_response :=
  if decide (i = 2%nat) then Samples.not_found
  else Fulfilled {| resp_status := 200;
                    resp_headers := {[ "content-type" := "image/png" ]};
                    resp_data := JStr "" |}.

End MoreSamples.

(** * Properties *)

(** ** Promise combinators *)

Module PromiseFacts.
Import Promise.

Section Slots.
Context {A : Type}.
Implicit Types (order : list nat) (slots : list (option A)).

Lemma fill_cons g j order slots :
  fill g slots (j :: order) = fill g (<[j := g j]> slots) order.
Proof. reflexivity. Qed.

Lemma fill_length g order slots :
  length (fill g slots order) = length slots.
Proof.
  revert slots. induction order as [|j order IH]; intros slots; [done|].
  rewrite fill_cons, IH. apply length_insert.
Qed.

Lemma fill_lookup_notin g order slots i :
  i ∉ order → fill g slots order !! i = slots !! i.
Proof.
  revert slots. induction order as [|j order IH]; intros slots Hi; [done|].
  apply not_elem_of_cons in Hi as [Hij Hi].
  rewrite fill_cons, IH by done. by apply list_lookup_insert_ne.
Qed.

Lemma fill_lookup_in g order slots i :
  i ∈ order → (i < length slots)%nat → fill g slots order !! i = Some (g i).
Proof.
  revert slots. induction order as [|j order IH]; intros slots Hi Hlt.
  - by apply elem_of_nil in Hi.
  - rewrite fill_cons. destruct (decide (i ∈ order)) as [Hin|Hout].
    + apply IH; [done|]. by rewrite length_insert.
    + apply elem_of_cons in Hi as [->|Hin]; [|done].
      rewrite fill_lookup_notin by done.
      by apply list_lookup_insert_eq.
Qed.
End Slots.

Section AllSettled.
Context {A : Type}.
Implicit Types (promises : list A) (order : list nat).

(** Once every promise has completed, each slot holds the outcome of the
    promise of its index, whatever the order of completion. *)
Lemma settle_slots_complete promises order :
  (∀ i, (i < length promises)%nat → i ∈ order) →
  settle_slots promises order = Some <$> promises.
Proof.
  intros Hall. apply list_eq. intros i. unfold settle_slots.
  destruct (decide (i < length promises)%nat) as [Hlt|Hge].
  - rewrite fill_lookup_in; [|by apply Hall|by rewrite length_replicate].
    rewrite list_lookup_fmap.
    destruct (lookup_lt_is_Some_2 promises i Hlt) as [x ->]. done.
  - rewrite !lookup_ge_None_2; [done| |].
    + rewrite length_fmap. lia.
    + rewrite fill_length, length_replicate. lia.
Qed.

Lemma allSettled_complete promises order :
  (∀ i, (i < length promises)%nat → i ∈ order) →
  allSettled promises order = Some promises.
Proof.
  intros Hall. unfold allSettled.
  rewrite settle_slots_complete by done.
  by apply mapM_fmap_Some.
Qed.

(** [Promise.allSettled] gives the outcomes in the order of the input
    array for every completion order. *)
Lemma allSettled_permutation promises order :
  order ≡ₚ seq 0 (length promises) →
  allSettled promises order = Some promises.
Proof.
  intros Hperm. apply allSettled_complete. intros i Hlt.
  rewrite Hperm. apply elem_of_seq. lia.
Qed.

(** While a promise has not completed, the combinator is pending. *)
Lemma allSettled_pending promises order i :
  (i < length promises)%nat → i ∉ order →
  allSettled promises order = None.
Proof.
  intros Hlt Hout. unfold allSettled. apply mapM_None.
  apply Exists_exists. exists None. split; [|done].
  apply list_elem_of_lookup. exists i. unfold settle_slots.
  rewrite fill_lookup_notin by done.
  by apply lookup_replicate_2.
Qed.
End AllSettled.

Section AllFacts.
Context {A : Type}.

Lemma first_rejection_none (promises : list (settled A)) order :
  Forall (λ p, is_Some (fulfilled_value p)) promises →
  first_rejection promises order = None.
Proof.
  intros Hall. induction order as [|i order IH]; [done|].
  cbn. destruct (promises !! i) as [[v|e]|] eqn:Hi; try done.
  eapply Forall_lookup_1 in Hall; [|done]. by destruct Hall.
Qed.

(** [Promise.all] over promises that all fulfil resolves once each of
    them has completed. *)
Lemma all_fulfilled (values : list A) order :
  order ≡ₚ seq 0 (length values) →
  all (Fulfilled <$> values) order = Some (Fulfilled values).
Proof.
  intros Hperm. unfold all.
  rewrite first_rejection_none.
  - rewrite allSettled_permutation by by rewrite length_fmap.
    cbn. by rewrite mapM_fmap_Some.
  - apply Forall_fmap, Forall_true. intros v. by eexists.
Qed.

Lemma all_pending (values : list A) order i :
  (i < length values)%nat → i ∉ order →
  all (Fulfilled <$> values) order = None.
Proof.
  intros Hlt Hout. unfold all.
  rewrite first_rejection_none.
  - rewrite (allSettled_pending _ _ i); [done| |done].
    by rewrite length_fmap.
  - apply Forall_fmap, Forall_true. intros v. by eexists.
Qed.
End AllFacts.

End PromiseFacts.

(** ** The search service *)

Module JsFacts.
Import Js.

Lemma assoc_app {A : Type} (k : string) (l1 l2 : list (string * A)) :
  assoc k (l1 ++ l2)%list
  = match assoc k l1 with
    | Some v => Some v
    | None => assoc k l2
    end.
Proof.
  induction l1 as [|[k' v] l1 IH]; cbn; [done|].
  by destruct (String.eqb k k').
Qed.

(** Copying properties into an object: the last property of a name is
    the one that is read afterwards, and a name that is not copied keeps
    what the target had. *)
Lemma assign_lookup (target : gmap string json)
    (props : list (string * json)) (k : string) :
  assign target props !! k
  = match assoc k (reverse props) with
    | Some v => Some v
    | None => target !! k
    end.
Proof.
  unfold assign. revert target.
  induction props as [|[k' v] props IH]; intros target; [done|].
  rewrite reverse_cons, assoc_app. cbn. rewrite IH.
  destruct (assoc k (reverse props)); [done|].
  destruct (String.eqb_spec k k') as [->|Hne].
  - by rewrite lookup_insert_eq.
  - by rewrite lookup_insert_ne.
Qed.

Lemma spread_lookup (target : gmap string json) (v : json) (k : string) :
  spread target v !! k
  = match field k v with
    | Some x => Some x
    | None => target !! k
    end.
Proof. apply assign_lookup. Qed.

Lemma spread_empty_lookup (v : json) (k : string) :
  spread ∅ v !! k = field k v.
Proof. rewrite spread_lookup. by destruct (field k v). Qed.

(** A parameter with a default converts exactly when it is absent or its
    value converts. *)
Lemma convertible_spec (dflt : string) (q : option qval) :
  is_Some (from_option toString (Some dflt) q) ↔ convertible q.
Proof.
  unfold convertible. destruct q as [v|]; cbn; split.
  - by intros Hv ? [= <-].
  - intros Hv. by apply Hv.
  - by intros _ ? [=].
  - by eexists.
Qed.

Lemma convertible_default (dflt : string) (q : option qval) :
  is_Some (toString (default (QStr dflt) q)) ↔ convertible q.
Proof. rewrite <- (convertible_spec dflt). by destruct q. Qed.

End JsFacts.

Module SearchApiSpec.
Import Js Process Promise Logger SearchApi PromiseFacts JsFacts.

Lemma measureExecutionTime_id {A : Type} (p : settled A) :
  measureExecutionTime p = p.
Proof. by destruct p. Qed.

Section Merge.
Variable env : gmap string string.
Variable outcome : backend → settled axios_response.

(** The fan-out issues the three requests and, once all three calls have
    completed in any order, the merge runs on the results in array
    order. *)
Lemma search_run pokemon_name text order issued :
  toString pokemon_name = Some text →
  order ≡ₚ seq 0 3 →
  search env outcome pokemon_name order issued =
    (Some (Fulfilled (merge pokemon_name
                        (fetched outcome Poke) (fetched outcome Stats)
                        (fetched outcome Images))),
     (issued ++ fan_out env text)%list).
Proof.
  intros Htext Hperm.
  unfold search, fetchPokemonData, fetchPokemonStats, fetchPokemonImage.
  rewrite Htext.
  cbv beta iota delta [axios_get bind ret fan_out].
  rewrite !measureExecutionTime_id.
  rewrite allSettled_permutation by done.
  by rewrite <- !app_assoc.
Qed.

Lemma search_pending pokemon_name order issued i :
  is_Some (toString pokemon_name) →
  (i < 3)%nat → i ∉ order →
  (search env outcome pokemon_name order issued).1 = None.
Proof.
  intros [text Htext] Hlt Hout.
  unfold search, fetchPokemonData, fetchPokemonStats, fetchPokemonImage.
  rewrite Htext.
  cbv beta iota delta [axios_get bind ret].
  by rewrite (allSettled_pending _ _ i).
Qed.

(** A name whose string conversion throws fails the search before the
    fan-out, whatever the backends would answer. *)
Lemma search_unconvertible pokemon_name order issued :
  toString pokemon_name = None →
  search env outcome pokemon_name order issued
  = (Some (Rejected conversion_error), issued).
Proof. intros Htext. unfold search. by rewrite Htext. Qed.

Lemma poke_search_run query pokemon_name text order issued :
  assoc "pokemon_name" query = Some pokemon_name →
  truthy (Some pokemon_name) = true →
  toString pokemon_name = Some text →
  order ≡ₚ seq 0 3 →
  poke_search env outcome query order issued =
    (let r := merge pokemon_name
                (fetched outcome Poke) (fetched outcome Stats)
                        (fetched outcome Images) in
     Some {| statusCode := 200;
             content := SearchResult (name r) (status r) (data r) |},
     (issued ++ fan_out env text)%list).
Proof.
  intros Hkey Htruthy Htext Hperm. unfold poke_search.
  rewrite Hkey, Htruthy. unfold bind, ret.
  by rewrite (search_run _ text).
Qed.

Lemma poke_search_unconvertible query pokemon_name order issued :
  assoc "pokemon_name" query = Some pokemon_name →
  truthy (Some pokemon_name) = true →
  toString pokemon_name = None →
  poke_search env outcome query order issued
  = (Some conversion_failed, issued).
Proof.
  intros Hkey Htruthy Htext. unfold poke_search.
  rewrite Hkey, Htruthy. unfold bind, ret.
  by rewrite search_unconvertible.
Qed.

Lemma poke_search_rejected query order issued :
  truthy (assoc "pokemon_name" query) = false →
  poke_search env outcome query order issued =
    (Some {| statusCode := 400;
             content := ErrorBody "pokemon_name parameter is required"
                                  None |},
     issued).
Proof.
  intros Hfalsy. unfold poke_search.
  destruct (assoc "pokemon_name" query) as [k|]; [|done].
  by rewrite Hfalsy.
Qed.

Lemma merge_name k p s i : name (merge k p s i) = k.
Proof. by destruct p, s, i. Qed.

Lemma merge_status k (p s i : settled json) :
  status (merge k p s i) =
    <["images_api" := flag i]>
      (<["stats_api" := flag s]> (<["poke_api" := flag p]> ∅)).
Proof. by destruct p, s, i. Qed.

Lemma merge_status_lookup k b :
  status (merge k (fetched outcome Poke) (fetched outcome Stats)
                  (fetched outcome Images)) !! status_key b
  = Some (flag (outcome b)).
Proof.
  rewrite merge_status. unfold fetched.
  destruct b; cbn; simplify_map_eq; by destruct (outcome _).
Qed.

Lemma flag_cases {A : Type} (p : settled A) :
  flag p = "success" ∨ flag p = "error".
Proof. destruct p; auto. Qed.

Lemma merge_status_values k p s i key v :
  status (merge k p s i) !! key = Some v → v = "success" ∨ v = "error".
Proof.
  rewrite merge_status. intros Hv.
  repeat (apply lookup_insert_Some in Hv as [[_ <-]|[_ Hv]];
          [apply flag_cases|]).
  by rewrite lookup_empty in Hv.
Qed.

Lemma merge_data_failure k b e :
  outcome b = Rejected e →
  data (merge k (fetched outcome Poke) (fetched outcome Stats)
                (fetched outcome Images)) !! error_key b
  = Some (JStr (message e)).
Proof.
  intros Hb. unfold fetched.
  destruct b; rewrite Hb; repeat destruct (outcome _); cbn;
    by simplify_map_eq.
Qed.

Lemma merge_data_stats k r :
  outcome Stats = Fulfilled r →
  data (merge k (fetched outcome Poke) (fetched outcome Stats)
                (fetched outcome Images)) !! "stats"
  = Some (resp_data r).
Proof.
  intros Hb. unfold fetched.
  rewrite Hb; repeat destruct (outcome _); cbn; by simplify_map_eq.
Qed.

Lemma merge_data_image k r :
  outcome Images = Fulfilled r →
  data (merge k (fetched outcome Poke) (fetched outcome Stats)
                (fetched outcome Images)) !! "image"
  = Some (resp_data r).
Proof.
  intros Hb. unfold fetched.
  rewrite Hb; repeat destruct (outcome _); cbn; by simplify_map_eq.
Qed.

(** The fields spread from the poke payload survive unless the stats or
    the image step assigns a field of the same name afterwards. *)
Lemma merge_data_poke k r key :
  outcome Poke = Fulfilled r →
  assigned_key Stats (outcome Stats) ≠ Some key →
  assigned_key Images (outcome Images) ≠ Some key →
  data (merge k (fetched outcome Poke) (fetched outcome Stats)
                (fetched outcome Images)) !! key
  = field key (resp_data r).
Proof.
  intros Hb Hs Hi. unfold fetched. rewrite Hb.
  destruct (outcome Stats), (outcome Images); cbn in *;
    rewrite !lookup_insert_ne by congruence;
    apply spread_empty_lookup.
Qed.

Lemma merge_status_dom k p s i :
  dom (status (merge k p s i)) = {[ "poke_api"; "stats_api"; "images_api" ]}.
Proof. rewrite merge_status, !dom_insert_L, dom_empty_L. set_solver. Qed.
End Merge.

(** C1, as the code has it.  For a non-empty key that converts to a
    string, whichever of the three backends fail and in whatever order the
    three calls complete, the handler calls the three backends and answers
    200 with a result whose [status] map has exactly the three entries
    [poke_api], [stats_api] and [images_api], each recording ["success"] or
    ["error"] according to how the call of that backend settled; no
    failure of a backend turns into the 500 reply of the handler's
    [catch].  For a non-empty key whose string conversion throws, the
    handler answers 500 and calls no backend. *)
Theorem search_reports_every_backend
    (env : gmap string string) (outcome : backend → settled axios_response)
    (query : list (string * qval)) (pokemon_name : qval)
    (order : list nat) (issued : list get_request) :
  assoc "pokemon_name" query = Some pokemon_name →
  truthy (Some pokemon_name) = true →
  order ≡ₚ seq 0 3 →
  match toString pokemon_name with
  | Some text =>
      ∃ status data,
        poke_search env outcome query order issued
          = (Some {| statusCode := 200;
                     content := SearchResult pokemon_name status data |},
             (issued ++ fan_out env text)%list)
        ∧ dom status = {[ "poke_api"; "stats_api"; "images_api" ]}
        ∧ (∀ b, status !! status_key b = Some (flag (outcome b)))
        ∧ (∀ key v, status !! key = Some v → v = "success" ∨ v = "error")
  | None =>
      poke_search env outcome query order issued
      = (Some {| statusCode := 500;
                 content := ErrorBody "Internal server error"
                              (Some "Cannot convert object to primitive value") |},
         issued)
  end.
Proof.
  intros Hkey Htruthy Hperm.
  destruct (toString pokemon_name) as [text|] eqn:Htext.
  - rewrite (poke_search_run env outcome query pokemon_name text) by done.
    cbn zeta. rewrite merge_name.
    eexists _, _. split; [reflexivity|]. split; [apply merge_status_dom|].
    split; [intros b; apply merge_status_lookup|].
    apply merge_status_values.
  - by rewrite (poke_search_unconvertible env outcome query pokemon_name).
Qed.

Lemma search_reports_every_backend_witness :
  ∃ status data,
    poke_search ∅ Samples.stats_down Samples.search_pikachu [2; 0; 1]%nat []
      = (Some {| statusCode := 200;
                 content := SearchResult (QStr "pikachu") status data |},
         fan_out ∅ "pikachu")
    ∧ dom status = {[ "poke_api"; "stats_api"; "images_api" ]}
    ∧ (∀ b, status !! status_key b = Some (flag (Samples.stats_down b)))
    ∧ (∀ key v, status !! key = Some v → v = "success" ∨ v = "error").
Proof.
  apply (search_reports_every_backend ∅ Samples.stats_down
           Samples.search_pikachu (QStr "pikachu") [2; 0; 1]%nat []).
  - reflexivity.
  - reflexivity.
  - solve_Permutation.
Defined.

(** C1, as the claim words it, fails: the key that
    [?pokemon_name[toString]=x] is parsed into is not empty, and with
    every backend up the handler answers 500 without calling one. *)
Lemma unconvertible_key_is_answered_500 :
  truthy (Some Samples.unconvertible) = true
  ∧ poke_search ∅ Samples.all_up
      [("pokemon_name", Samples.unconvertible)] [0; 1; 2]%nat []
    = (Some {| statusCode := 500;
               content := ErrorBody "Internal server error"
                            (Some "Cannot convert object to primitive value") |},
       []).
Proof. split; reflexivity. Qed.

(** C2, as the code has it.  The merge runs for a non-empty key that
    converts to a string.  A backend whose call fulfils is recorded as
    ["success"]; the stats payload becomes the field [stats] of [data], the
    image payload the field [image], and the properties of the poke
    payload are copied into [data], where they stay unless the stats or
    the image step assigns a field of the same name afterwards.  A backend
    whose call rejects is recorded as ["error"] and its message is stored
    in [data] under [poke_api_error], [stats_error] or [image_error]. *)
Theorem merge_policy
    (env : gmap string string) (outcome : backend → settled axios_response)
    (query : list (string * qval)) (pokemon_name : qval)
    (order : list nat) (issued : list get_request) :
  assoc "pokemon_name" query = Some pokemon_name →
  truthy (Some pokemon_name) = true →
  is_Some (toString pokemon_name) →
  order ≡ₚ seq 0 3 →
  ∃ status data,
    (poke_search env outcome query order issued).1
      = Some {| statusCode := 200;
                content := SearchResult pokemon_name status data |}
    ∧ (∀ b r, outcome b = Fulfilled r →
         status !! status_key b = Some "success")
    ∧ (∀ r, outcome Stats = Fulfilled r →
         data !! "stats" = Some (resp_data r))
    ∧ (∀ r, outcome Images = Fulfilled r →
         data !! "image" = Some (resp_data r))
    ∧ (∀ r key, outcome Poke = Fulfilled r →
         assigned_key Stats (outcome Stats) ≠ Some key →
         assigned_key Images (outcome Images) ≠ Some key →
         data !! key = field key (resp_data r))
    ∧ (∀ b e, outcome b = Rejected e →
         status !! status_key b = Some "error"
         ∧ data !! error_key b = Some (JStr (message e))).
Proof.
  intros Hkey Htruthy [text Htext] Hperm.
  rewrite (poke_search_run env outcome query pokemon_name text) by done.
  cbn [fst]. rewrite merge_name.
  eexists _, _. split; [reflexivity|].
  split; [|split; [|split; [|split]]].
  - intros b r Hb. by rewrite merge_status_lookup, Hb.
  - apply merge_data_stats.
  - apply merge_data_image.
  - intros r key. apply merge_data_poke.
  - intros b e Hb. split.
    + by rewrite merge_status_lookup, Hb.
    + by apply merge_data_failure.
Qed.

Lemma merge_policy_witness :
  ∃ status data,
    (poke_search ∅ Samples.stats_down Samples.search_pikachu
                 [1; 2; 0]%nat []).1
      = Some {| statusCode := 200;
                content := SearchResult (QStr "pikachu") status data |}
    ∧ (∀ b r, Samples.stats_down b = Fulfilled r →
         status !! status_key b = Some "success")
    ∧ (∀ r, Samples.stats_down Stats = Fulfilled r →
         data !! "stats" = Some (resp_data r))
    ∧ (∀ r, Samples.stats_down Images = Fulfilled r →
         data !! "image" = Some (resp_data r))
    ∧ (∀ r key, Samples.stats_down Poke = Fulfilled r →
         assigned_key Stats (Samples.stats_down Stats) ≠ Some key →
         assigned_key Images (Samples.stats_down Images) ≠ Some key →
         data !! key = field key (resp_data r))
    ∧ (∀ b e, Samples.stats_down b = Rejected e →
         status !! status_key b = Some "error"
         ∧ data !! error_key b = Some (JStr (message e))).
Proof.
  apply (merge_policy ∅ Samples.stats_down Samples.search_pikachu
           (QStr "pikachu") [1; 2; 0]%nat []).
  - reflexivity.
  - reflexivity.
  - by eexists.
  - solve_Permutation.
Defined.

(** C2, as the claim words it, fails: when the stats backend is down, the
    [status] map records ["error"] under [stats_api], but [data] has no
    field [stats_api_error]; the message is under [stats_error]. *)
Lemma error_field_not_named_after_status_key :
  let r := (poke_search ∅ Samples.stats_down Samples.search_pikachu
                        [0; 1; 2]%nat []).1 in
  reply_status r !! status_key Stats = Some "error"
  ∧ reply_data r !! (status_key Stats ++ "_error") = None
  ∧ reply_data r !! "stats_error"
    = Some (JStr "connect ECONNREFUSED 127.0.0.1:3002").
Proof. vm_compute. done. Qed.

Lemma merge_step_view
    (step : settled json → search_response → search_response)
    (o1 o2 : settled axios_response) (r : search_response) :
  step = merge_poke ∨ step = merge_stats ∨ step = merge_image →
  settled_view o1 = settled_view o2 →
  step (then_ resp_data o1) r = step (then_ resp_data o2) r.
Proof.
  intros Hstep Hview.
  destruct o1 as [r1|e1], o2 as [r2|e2]; cbn in *; try discriminate.
  - injection Hview as Hdata. by rewrite Hdata.
  - injection Hview as Hmsg.
    destruct Hstep as [->|[->| ->]]; cbn; by rewrite Hmsg.
Qed.

Lemma merge_view k (outcome1 outcome2 : backend → settled axios_response) :
  (∀ b, settled_view (outcome1 b) = settled_view (outcome2 b)) →
  merge k (fetched outcome1 Poke) (fetched outcome1 Stats)
          (fetched outcome1 Images)
  = merge k (fetched outcome2 Poke) (fetched outcome2 Stats)
            (fetched outcome2 Images).
Proof.
  intros Hview. unfold merge, fetched.
  rewrite (merge_step_view merge_poke _ (outcome2 Poke)) by auto.
  rewrite (merge_step_view merge_stats _ (outcome2 Stats)) by auto.
  by rewrite (merge_step_view merge_image _ (outcome2 Images)) by auto.
Qed.

(** C3. The reply of the handler is a function of the key and of what each
    backend's call settled with (the payload of a response, the message of
    an error): two runs that agree on these give the same reply, whatever
    the order in which the three calls complete in either run, and whatever
    requests were issued before. *)
Theorem search_order_insensitive
    (env : gmap string string)
    (outcome1 outcome2 : backend → settled axios_response)
    (query : list (string * qval))
    (order1 order2 : list nat) (issued1 issued2 : list get_request) :
  (∀ b, settled_view (outcome1 b) = settled_view (outcome2 b)) →
  order1 ≡ₚ seq 0 3 →
  order2 ≡ₚ seq 0 3 →
  (poke_search env outcome1 query order1 issued1).1
  = (poke_search env outcome2 query order2 issued2).1.
Proof.
  intros Hview Hperm1 Hperm2.
  destruct (truthy (assoc "pokemon_name" query)) eqn:Htruthy.
  - destruct (assoc "pokemon_name" query) as [k|] eqn:Hkey; [|done].
    destruct (toString k) as [text|] eqn:Htext.
    + rewrite !(poke_search_run _ _ query k text) by done.
      cbn [fst]. by rewrite (merge_view k outcome1 outcome2).
    + by rewrite !(poke_search_unconvertible _ _ query k).
  - by rewrite !poke_search_rejected.
Qed.

Lemma search_order_insensitive_witness :
  (poke_search ∅ Samples.stats_down Samples.search_pikachu
               [2; 1; 0]%nat []).1
  = (poke_search ∅ Samples.stats_down Samples.search_pikachu
                 [0; 2; 1]%nat []).1.
Proof.
  apply (search_order_insensitive ∅ Samples.stats_down Samples.stats_down
           Samples.search_pikachu [2; 1; 0]%nat [0; 2; 1]%nat [] []).
  - reflexivity.
  - solve_Permutation.
  - solve_Permutation.
Defined.

(** C8. A request without [pokemon_name], or with an empty one, is answered
    with 400 at once, and no outbound request is issued. *)
Theorem empty_key_rejected
    (env : gmap string string) (outcome : backend → settled axios_response)
    (query : list (string * qval))
    (order : list nat) (issued : list get_request) :
  assoc "pokemon_name" query = None
  ∨ assoc "pokemon_name" query = Some (QStr "") →
  poke_search env outcome query order issued
  = (Some {| statusCode := 400;
             content := ErrorBody "pokemon_name parameter is required" None |},
     issued).
Proof.
  intros [Hkey|Hkey]; apply poke_search_rejected; by rewrite Hkey.
Qed.

Lemma empty_key_rejected_witness :
  poke_search ∅ Samples.all_up [("pokemon_name", QStr "")] [] []
  = (Some {| statusCode := 400;
             content := ErrorBody "pokemon_name parameter is required" None |},
     []).
Proof.
  apply (empty_key_rejected ∅ Samples.all_up [("pokemon_name", QStr "")] [] []).
  right. reflexivity.
Defined.

(** A key that arrives twice in the query string is parsed as an array;
    the handler accepts it and asks the backends for the joined value. *)
Lemma repeated_key_reaches_backends :
  (poke_search ∅ Samples.all_up
     [("pokemon_name", QArr [QStr "pikachu"; QStr "pikachu"])]
     [0; 1; 2]%nat []).2
  = [ {| url := "http://localhost:3004/api/pokemon/pikachu,pikachu";
         timeout := 5000 |};
      {| url := "http://localhost:3002/api/stats/pikachu,pikachu";
         timeout := 5000 |};
      {| url := "http://localhost:3003/api/images/pikachu,pikachu";
         timeout := 5000 |} ].
Proof. reflexivity. Qed.

(** C9. The poke payload is spread into [data] first and the stats and
    image fields are assigned afterwards: when the three backends have
    been called (the key is not empty and converts to a string) and the
    poke and the stats backend both succeed, [data.stats] is the payload
    of the stats backend, whatever [stats] property the poke payload has,
    while every other property of the poke payload that the image step
    does not assign is kept, and [data] has no property of another
    origin. *)
Theorem stats_field_overwritten
    (env : gmap string string) (outcome : backend → settled axios_response)
    (query : list (string * qval)) (pokemon_name : qval)
    (order : list nat) (issued : list get_request)
    (poke stats : axios_response) :
  assoc "pokemon_name" query = Some pokemon_name →
  truthy (Some pokemon_name) = true →
  is_Some (toString pokemon_name) →
  order ≡ₚ seq 0 3 →
  outcome Poke = Fulfilled poke →
  outcome Stats = Fulfilled stats →
  let data := reply_data (poke_search env outcome query order issued).1 in
  data !! "stats" = Some (resp_data stats)
  ∧ (∀ key, key ≠ "stats" →
       assigned_key Images (outcome Images) ≠ Some key →
       data !! key = field key (resp_data poke)).
Proof.
  intros Hkey Htruthy [text Htext] Hperm Hpoke Hstats.
  rewrite (poke_search_run env outcome query pokemon_name text) by done.
  cbn [fst reply_data]. split.
  - by apply merge_data_stats.
  - intros key Hne Hi. apply merge_data_poke; [done| |done].
    rewrite Hstats. cbn. congruence.
Qed.

Lemma stats_field_overwritten_witness :
  let data := reply_data (poke_search ∅ Samples.all_up Samples.search_pikachu
                                      [2; 0; 1]%nat []).1 in
  data !! "stats" = Some Samples.pikachu_stats
  ∧ (∀ key, key ≠ "stats" →
       assigned_key Images (Samples.all_up Images) ≠ Some key →
       data !! key = field key Samples.pikachu).
Proof.
  apply (stats_field_overwritten ∅ Samples.all_up Samples.search_pikachu
           (QStr "pikachu") [2; 0; 1]%nat []
           {| resp_status := 200; resp_headers := ∅;
              resp_data := Samples.pikachu |}
           {| resp_status := 200; resp_headers := ∅;
              resp_data := Samples.pikachu_stats |}).
  - reflexivity.
  - reflexivity.
  - by eexists.
  - solve_Permutation.
  - reflexivity.
  - reflexivity.
Defined.

End SearchApiSpec.

(** ** The gateway *)

Module GatewaySpec.
Import Js Process Promise Gateway PromiseFacts.

(** *** Completion order of commuting effects *)

Lemma foldl_permutation_comm {A B : Type} (f : A → B → A) (l1 l2 : list B) :
  (∀ a x y, x ≠ y → f (f a x) y = f (f a y) x) →
  l1 ≡ₚ l2 → NoDup l1 → ∀ a, foldl f a l1 = foldl f a l2.
Proof.
  intros Hcomm Hperm.
  induction Hperm as [|x l1 l2 _ IH|x y l|l1 l2 l3 Hperm12 IH12 _ IH23];
    intros Hnodup a.
  - done.
  - cbn. apply IH. by apply NoDup_cons in Hnodup as [_ ?].
  - cbn. f_equal. apply Hcomm.
    apply NoDup_cons in Hnodup as [Hy _].
    intros ->. apply Hy. by left.
  - rewrite IH12 by done. apply IH23. by rewrite <- Hperm12.
Qed.

Section Health.
Variable env : gmap string string.
Variable outcome : nat → settled axios_response.

Lemma health_check_insert serviceName serviceUrl result microservices :
  health_check serviceName serviceUrl result microservices
  = <[toLowerCase serviceName := health_entry serviceUrl result]>
      microservices.
Proof. by destruct result. Qed.

(** Whatever the order of completion, [status.microservices] ends up
    with the four entries of the registry. *)
Lemma run_health_checks_permutation order :
  order ≡ₚ seq 0 4 →
  run_health_checks env outcome order
  = run_health_checks env outcome (seq 0 4).
Proof.
  intros Hperm. unfold run_health_checks.
  apply foldl_permutation_comm; [|done|].
  - intros m i j Hij.
    destruct i as [|[|[|[|i]]]], j as [|[|[|[|j]]]]; try done; cbn;
      rewrite !health_check_insert; by apply insert_insert_ne.
  - rewrite Hperm. apply NoDup_seq.
Qed.

(** Each service of the registry gets the entry of its own call, under
    its lower-case name. *)
Lemma run_health_checks_lookup order i serviceName serviceUrl :
  order ≡ₚ seq 0 4 →
  MICROSERVICES env !! i = Some (serviceName, serviceUrl) →
  run_health_checks env outcome order !! toLowerCase serviceName
  = Some (health_entry serviceUrl (outcome i)).
Proof.
  intros Hperm Hi. rewrite run_health_checks_permutation by done.
  destruct i as [|[|[|[|i]]]]; try done;
    injection Hi as <- <-; cbn; rewrite !health_check_insert;
    by simplify_map_eq.
Qed.

Lemma run_health_checks_dom order :
  order ≡ₚ seq 0 4 →
  dom (run_health_checks env outcome order)
  = {[ "search_api"; "stats_api"; "images_api"; "poke_api" ]}.
Proof.
  intros Hperm. rewrite run_health_checks_permutation by done.
  cbn. rewrite !health_check_insert, !dom_insert_L, dom_empty_L.
  cbn. set_solver.
Qed.

(** Every entry of [status.microservices] belongs to a service of the
    registry. *)
Lemma run_health_checks_entries order name e :
  order ≡ₚ seq 0 4 →
  run_health_checks env outcome order !! name = Some e →
  ∃ i serviceName serviceUrl,
    MICROSERVICES env !! i = Some (serviceName, serviceUrl)
    ∧ name = toLowerCase serviceName
    ∧ e = health_entry serviceUrl (outcome i).
Proof.
  intros Hperm. rewrite run_health_checks_permutation by done.
  cbn. rewrite !health_check_insert. cbn. intros He.
  apply lookup_insert_Some in He as [[<- <-]|[_ He]];
    [by exists 3%nat, "POKE_API", (env_or env "POKE_API_URL" "http://localhost:3004")|].
  apply lookup_insert_Some in He as [[<- <-]|[_ He]];
    [by exists 2%nat, "IMAGES_API", (env_or env "IMAGES_API_URL" "http://localhost:3003")|].
  apply lookup_insert_Some in He as [[<- <-]|[_ He]];
    [by exists 1%nat, "STATS_API", (env_or env "STATS_API_URL" "http://localhost:3002")|].
  apply lookup_insert_Some in He as [[<- <-]|[_ He]];
    [by exists 0%nat, "SEARCH_API", (env_or env "SEARCH_API_URL" "http://localhost:3001")|].
  by rewrite lookup_empty in He.
Qed.

(** The handler replies once the four checks have completed. *)
Lemma status_handler_run proc order :
  order ≡ₚ seq 0 4 →
  status_handler env proc outcome order
  = (let microservices := run_health_checks env outcome order in
     let healthy := allHealthy microservices in
     Some (if healthy then 200 else 503,
           {| gateway :=
                {| gateway_status := "healthy";
                   uptime := process_uptime proc;
                   memory := process_memoryUsage proc;
                   timestamp := now_iso proc |};
              microservices := microservices;
              overall_status := if healthy then "healthy" else "degraded";
              check_duration_ms := endTime proc - startTime proc |})).
Proof.
  intros Hperm. unfold status_handler.
  change ((λ _ : string * string, Fulfilled ()) <$> MICROSERVICES env)
    with (Fulfilled <$> replicate 4 ()).
  by rewrite all_fulfilled.
Qed.

Lemma status_handler_pending proc order i :
  (i < 4)%nat → i ∉ order →
  status_handler env proc outcome order = None.
Proof.
  intros Hlt Hout. unfold status_handler.
  change ((λ _ : string * string, Fulfilled ()) <$> MICROSERVICES env)
    with (Fulfilled <$> replicate 4 ()).
  by rewrite (all_pending _ _ i).
Qed.
End Health.

Lemma allHealthy_spec (microservices : gmap string service_entry) :
  allHealthy microservices = true
  ↔ ∀ name e, microservices !! name = Some e → entry_status e = "healthy".
Proof.
  unfold allHealthy. rewrite forallb_forall. split.
  - intros Hall name e He. apply String.eqb_eq, Hall.
    apply list_elem_of_In, list_elem_of_fmap. exists (name, e).
    split; [done|]. by apply elem_of_map_to_list.
  - intros Hall e He.
    apply list_elem_of_In, list_elem_of_fmap in He as [[name e'] [-> He]].
    apply elem_of_map_to_list in He. apply String.eqb_eq. by eapply Hall.
Qed.

(** C4. Once the four health checks have completed, in any order, the
    handler replies with a report whose [overall_status] is ["healthy"]
    exactly when every entry of [microservices] has status ["healthy"], and
    ["degraded"] otherwise; the reply code is 200 in the first case and 503
    in the second.  Each service has the entry of its own call: healthy
    when the call fulfilled, unhealthy when it rejected.  If one service is
    made to fail and the others settle as before, the report becomes
    ["degraded"] with code 503 and the entries of the other services are
    the same. *)
Theorem health_reduction
    (env : gmap string string) (proc : process_info)
    (outcome : nat → settled axios_response) (order : list nat) :
  order ≡ₚ seq 0 4 →
  ∃ code report,
    status_handler env proc outcome order = Some (code, report)
    ∧ (overall_status report = "healthy"
       ↔ ∀ name e, microservices report !! name = Some e →
                   entry_status e = "healthy")
    ∧ (overall_status report = "healthy" ∧ code = 200
       ∨ overall_status report = "degraded" ∧ code = 503)
    ∧ (∀ i serviceName serviceUrl,
         MICROSERVICES env !! i = Some (serviceName, serviceUrl) →
         microservices report !! toLowerCase serviceName
         = Some (health_entry serviceUrl (outcome i)))
    ∧ (∀ j error outcome' order',
         (j < 4)%nat →
         order' ≡ₚ seq 0 4 →
         outcome' j = Rejected error →
         (∀ i, i ≠ j → outcome' i = outcome i) →
         ∃ report',
           status_handler env proc outcome' order' = Some (503, report')
           ∧ overall_status report' = "degraded"
           ∧ ∀ i serviceName serviceUrl,
               i ≠ j →
               MICROSERVICES env !! i = Some (serviceName, serviceUrl) →
               microservices report' !! toLowerCase serviceName
               = microservices report !! toLowerCase serviceName).
Proof.
  intros Hperm. rewrite status_handler_run by done. cbn zeta.
  eexists _, _. split; [reflexivity|]. cbn [overall_status microservices].
  split; [|split; [|split]].
  - rewrite <- allHealthy_spec.
    by destruct (allHealthy (run_health_checks env outcome order)).
  - destruct (allHealthy (run_health_checks env outcome order)); auto.
  - intros i serviceName serviceUrl. by apply run_health_checks_lookup.
  - intros j error outcome' order' Hj Hperm' Hdown Hsame.
    rewrite status_handler_run by done. cbn zeta.
    assert (allHealthy (run_health_checks env outcome' order') = false)
      as ->.
    { apply not_true_is_false. rewrite allHealthy_spec. intros Hall.
      destruct (lookup_lt_is_Some_2 (MICROSERVICES env) j)
        as [[serviceName serviceUrl] Hentry]; [done|].
      specialize (Hall _ _
        (run_health_checks_lookup env outcome' order' j _ _ Hperm' Hentry)).
      by rewrite Hdown in Hall. }
    eexists. split; [reflexivity|]. split; [done|].
    intros i serviceName serviceUrl Hij Hentry. cbn [microservices].
    rewrite !(run_health_checks_lookup env _ _ i _ serviceUrl) by done.
    by rewrite Hsame.
Qed.

Lemma health_reduction_witness :
  ∃ code report,
    status_handler ∅ Samples.process Samples.health_all_up [3; 1; 0; 2]%nat
    = Some (code, report)
    ∧ (overall_status report = "healthy"
       ↔ ∀ name e, microservices report !! name = Some e →
                   entry_status e = "healthy")
    ∧ (overall_status report = "healthy" ∧ code = 200
       ∨ overall_status report = "degraded" ∧ code = 503)
    ∧ (∀ i serviceName serviceUrl,
         MICROSERVICES ∅ !! i = Some (serviceName, serviceUrl) →
         microservices report !! toLowerCase serviceName
         = Some (health_entry serviceUrl (Samples.health_all_up i)))
    ∧ (∀ j error outcome' order',
         (j < 4)%nat →
         order' ≡ₚ seq 0 4 →
         outcome' j = Rejected error →
         (∀ i, i ≠ j → outcome' i = Samples.health_all_up i) →
         ∃ report',
           status_handler ∅ Samples.process outcome' order'
           = Some (503, report')
           ∧ overall_status report' = "degraded"
           ∧ ∀ i serviceName serviceUrl,
               i ≠ j →
               MICROSERVICES ∅ !! i = Some (serviceName, serviceUrl) →
               microservices report' !! toLowerCase serviceName
               = microservices report !! toLowerCase serviceName).
Proof.
  apply (health_reduction ∅ Samples.process Samples.health_all_up
           [3; 1; 0; 2]%nat).
  solve_Permutation.
Defined.

(** C10. In every report the entry of the gateway itself is the constant
    ["healthy"] together with what the process reports about itself: it
    does not depend on how any health check settled.  [overall_status] is
    computed from the entries of [microservices] alone. *)
Theorem gateway_entry_constant
    (env : gmap string string) (proc : process_info)
    (outcome : nat → settled axios_response) (order : list nat) :
  order ≡ₚ seq 0 4 →
  ∃ code report,
    status_handler env proc outcome order = Some (code, report)
    ∧ gateway report
      = {| gateway_status := "healthy";
           uptime := process_uptime proc;
           memory := process_memoryUsage proc;
           timestamp := now_iso proc |}
    ∧ overall_status report
      = (if allHealthy (microservices report) then "healthy" else "degraded").
Proof.
  intros Hperm. rewrite status_handler_run by done. cbn zeta.
  eexists _, _. split; [reflexivity|]. split; reflexivity.
Qed.

Lemma gateway_entry_constant_witness :
  ∃ code report,
    status_handler ∅ Samples.process Samples.health_images_down
                   [2; 3; 0; 1]%nat
    = Some (code, report)
    ∧ gateway report
      = {| gateway_status := "healthy";
           uptime := process_uptime Samples.process;
           memory := process_memoryUsage Samples.process;
           timestamp := now_iso Samples.process |}
    ∧ overall_status report
      = (if allHealthy (microservices report) then "healthy" else "degraded").
Proof.
  apply (gateway_entry_constant ∅ Samples.process Samples.health_images_down
           [2; 3; 0; 1]%nat).
  solve_Permutation.
Defined.

(** Every service that a proxy route names is in the registry. *)
Lemma routes_registered (env : gmap string string) :
  Forall (λ route, is_Some (assoc route.2 (MICROSERVICES env))) routes.
Proof. repeat constructor; by eexists. Qed.

(** C5, as the code has it.  When the proxied call fails, the status of
    the reply is 503 without a response from the backend and the
    backend's own status when it answered (with a status code of HTTP,
    100 to 999).  The body [{error: "Service unavailable", service,
    message, timestamp}] is handed to [res.json] in every case, but it is
    sent only when the request is not a [HEAD] and the status is none of
    204, 205 and 304; otherwise the reply has no body. *)
Theorem proxy_failure_reply
    (env : gmap string string) (serviceName basePath : string)
    (req : request) (error : axios_error) (now : string) :
  (∀ r, response error = Some r → 100 ≤ status r ≤ 999) →
  ∃ reply,
    (createProxy env serviceName basePath req (Rejected error) now).2
      = Some reply
    ∧ statusCode reply
      = match response error with
        | Some r => status r
        | None => 503
        end
    ∧ (content reply = None
       ↔ method req = "HEAD" ∨ statusCode reply = 204
         ∨ statusCode reply = 205 ∨ statusCode reply = 304)
    ∧ (∀ body, content reply = Some body →
         ∃ fields,
           body = Object fields
           ∧ unavailable serviceName
               match response error with
               | Some r =>
                   "Service error: " ++ pretty (status r)
                     ++ " - " ++ statusText r
               | None => "Network error: " ++ message error
               end fields).
Proof.
  intros Hstatus. cbn. unfold proxy_failure, res_json.
  set (code := match response error with
               | Some r => if status r =? 0 then 503 else status r
               | None => 503
               end).
  assert (code = match response error with
                 | Some r => status r
                 | None => 503
                 end ∧ 100 ≤ code ≤ 999) as [Hcode Hrange].
  { subst code. destruct (response error) as [r|]; [|lia].
    specialize (Hstatus r eq_refl).
    destruct (Z.eqb_spec (status r) 0); lia. }
  rewrite <- Hcode.
  destruct (Z.ltb_spec code 100); [lia|].
  destruct (Z.ltb_spec 999 code); [lia|]. cbn.
  eexists. split; [reflexivity|]. cbn. split; [done|]. split.
  - unfold bodiless.
    destruct (String.eqb_spec (method req) "HEAD"),
      (Z.eqb_spec code 204), (Z.eqb_spec code 205), (Z.eqb_spec code 304);
      cbn; split; try done; auto; intros [?|[?|[?|?]]]; done.
  - intros body Hbody.
    destruct (bodiless code || String.eqb (method req) "HEAD");
      [done|]. injection Hbody as <-.
    eexists. split; [reflexivity|].
    unfold unavailable. split_and!; by simplify_map_eq.
Qed.

Lemma proxy_failure_reply_witness :
  ∃ reply,
    (createProxy ∅ "STATS_API" "/api/stats" Samples.search_request
                 Samples.not_found "2024-01-15T00:00:00.000Z").2
      = Some reply
    ∧ statusCode reply = 404
    ∧ (content reply = None
       ↔ "GET" = "HEAD" ∨ statusCode reply = 204
         ∨ statusCode reply = 205 ∨ statusCode reply = 304)
    ∧ (∀ body, content reply = Some body →
         ∃ fields,
           body = Object fields
           ∧ unavailable "STATS_API" "Service error: 404 - Not Found" fields).
Proof.
  apply (proxy_failure_reply ∅ "STATS_API" "/api/stats"
           Samples.search_request
           {| message := "Request failed with status code 404";
              code := Some "ERR_BAD_REQUEST";
              response := Some {| status := 404; statusText := "Not Found" |} |}
           "2024-01-15T00:00:00.000Z").
  intros r Hr. injection Hr as <-. cbn. lia.
Defined.

(** C5, as the claim words it, fails: when the backend answers 304 (as an
    Express backend does to a conditional request that the proxy passed
    on), the gateway replies 304 without a body; and the reply to a
    [HEAD] request whose backend call failed has no body either. *)
Lemma failure_reply_without_body :
  (createProxy ∅ "STATS_API" "/api/stats" Samples.search_request
               Samples.not_modified "2024-01-15T00:00:00.000Z").2
  = Some {| statusCode := 304; content := None |}
  ∧ (createProxy ∅ "STATS_API" "/api/stats" Samples.head_request
                 Samples.not_found "2024-01-15T00:00:00.000Z").2
    = Some {| statusCode := 404; content := None |}.
Proof. split; reflexivity. Qed.

(** C7. The request handed to axios has a [host] property whose value is
    [undefined], so no [host] header of the inbound request is sent on;
    every other inbound header is sent unchanged. *)
Theorem host_header_scrubbed
    (env : gmap string string) (serviceName : string) (req : request) :
  let config := proxy_request env serviceName req in
  cfg_headers config !! "host" = Some None
  ∧ sent_headers config !! "host" = None
  ∧ ∀ name, name ≠ "host" → sent_headers config !! name = headers req !! name.
Proof.
  cbn. unfold sent_headers. cbn. split; [by simplify_map_eq|].
  split.
  - by rewrite lookup_omap, lookup_insert_eq.
  - intros name Hname.
    rewrite lookup_omap, lookup_insert_ne, lookup_fmap by done.
    by destruct (headers req !! name).
Qed.

(** *** What axios sends *)

Lemma before_char_app_neq (c a : ascii) (url suffix : string) :
  a ≠ c → before_char c url ++ String a suffix ≠ url.
Proof.
  intros Hac. induction url as [|c' url IH]; cbn; [done|].
  destruct (Ascii.eqb_spec c c') as [<-|Hcc]; cbn.
  - intros Heq. injection Heq as Ha _. done.
  - intros Heq. injection Heq as Heq. done.
Qed.

(** Whatever the serializer of axios is, a request whose [params]
    serialize to a non-empty string is not sent to the URL that the proxy
    built. *)
Lemma buildURL_appends (serialize : list (string * qval) → string)
    (url : string) (params : list (string * qval)) :
  serialize params ≠ "" → buildURL serialize url params ≠ url.
Proof.
  intros Hparams. unfold buildURL.
  destruct (String.eqb_spec (serialize params) "") as [|_]; [done|].
  destruct (has_char "?" (before_char "#" url));
    apply before_char_app_neq; discriminate.
Qed.

(** C6, evaluated on [GET /poke/search?pokemon_name=pikachu]: method and
    body are forwarded as they are and the target URL is the base URL of
    the service followed by the original URL, but the parsed query is
    passed as [params] as well, so the request goes out with the parameter
    twice. *)
Lemma proxy_duplicates_query :
  let config := proxy_request ∅ "SEARCH_API" Samples.search_request in
  cfg_method config = "GET"
  ∧ cfg_data config = JObj []
  ∧ cfg_url config = "http://localhost:3001/poke/search?pokemon_name=pikachu"
  ∧ cfg_params config = [("pokemon_name", QStr "pikachu")]
  ∧ effective_url serialize_flat config
    = "http://localhost:3001/poke/search?pokemon_name=pikachu&pokemon_name=pikachu".
Proof. repeat split. Qed.

End GatewaySpec.

(** ** [Map] and array operations *)

Module JsMapFacts.
Import Js.

Section Facts.
Context {V : Type}.
Implicit Types (m : list (string * V)) (k : string) (v : V).

Lemma get_set_eq m k v : JsMap.get k (JsMap.set k v m) = Some v.
Proof.
  unfold JsMap.get. induction m as [|[k' v'] m IH]; cbn.
  - by rewrite String.eqb_refl.
  - destruct (String.eqb_spec k k') as [->|Hne]; cbn.
    + by rewrite String.eqb_refl.
    + by destruct (String.eqb_spec k k').
Qed.

Lemma get_set_ne m k k' v :
  k ≠ k' → JsMap.get k' (JsMap.set k v m) = JsMap.get k' m.
Proof.
  intros Hne. unfold JsMap.get. induction m as [|[k0 v0] m IH]; cbn.
  - by destruct (String.eqb_spec k' k) as [->|_].
  - destruct (String.eqb_spec k k0) as [->|Hk]; cbn.
    + by destruct (String.eqb_spec k' k0) as [->|_].
    + by rewrite IH.
Qed.

Lemma get_Some_elem m k v : JsMap.get k m = Some v → (k, v) ∈ m.
Proof.
  unfold JsMap.get. induction m as [|[k' v'] m IH]; cbn; [done|].
  destruct (String.eqb_spec k k') as [->|_].
  - intros [= ->]. by left.
  - intros Hget. right. by apply IH.
Qed.

Lemma get_None_keys m k : JsMap.get k m = None ↔ k ∉ JsMap.keys m.
Proof.
  unfold JsMap.get, JsMap.keys. induction m as [|[k' v'] m IH]; cbn.
  - split; [intros _ Hin; by apply elem_of_nil in Hin|done].
  - rewrite not_elem_of_cons.
    destruct (String.eqb_spec k k') as [->|Hne].
    + split; [done|]. by intros [? _].
    + rewrite IH. split; [done|]. by intros [_ ?].
Qed.

(** Setting a key that is present keeps the keys; a new key goes to the
    end. *)
Lemma keys_set m k v :
  JsMap.keys (JsMap.set k v m)
  = if decide (k ∈ JsMap.keys m) then JsMap.keys m
    else (JsMap.keys m ++ [k])%list.
Proof.
  unfold JsMap.keys. induction m as [|[k' v'] m IH]; cbn.
  - by rewrite decide_False by apply not_elem_of_nil.
  - destruct (String.eqb_spec k k') as [->|Hne]; cbn.
    + by rewrite decide_True by left.
    + rewrite IH. destruct (decide (k ∈ m.*1)) as [Hin|Hout].
      * by rewrite decide_True by by right.
      * by rewrite decide_False by by apply not_elem_of_cons.
Qed.

Lemma keys_set_NoDup m k v :
  NoDup (JsMap.keys m) → NoDup (JsMap.keys (JsMap.set k v m)).
Proof.
  intros Hnd. rewrite keys_set. case_decide; [done|].
  apply NoDup_app. split; [done|]. split; [|apply NoDup_singleton].
  intros x Hx Hin. apply list_elem_of_singleton in Hin as ->. done.
Qed.

(** In a map without repeated keys, filtering the entries removes a key
    or leaves its value. *)
Lemma get_filter (P : string * V → Prop) `{!∀ kv, Decision (P kv)} m k :
  NoDup (JsMap.keys m) →
  JsMap.get k (filter P m)
  = match JsMap.get k m with
    | Some v => if decide (P (k, v)) then Some v else None
    | None => None
    end.
Proof.
  unfold JsMap.get, JsMap.keys.
  induction m as [|[k' v'] m IH]; intros Hnd; [done|].
  apply NoDup_cons in Hnd as [Hk' Hnd]. rewrite filter_cons.
  destruct (String.eqb_spec k k') as [->|Hne].
  - destruct (decide (P (k', v'))) as [HP|HP]; cbn;
      rewrite String.eqb_refl; [by rewrite decide_True|].
    rewrite IH, decide_False by done.
    replace (assoc k' m) with (@None V); [done|].
    symmetry. by apply get_None_keys.
  - destruct (decide (P (k', v'))); cbn;
      destruct (String.eqb_spec k k'); try done; by apply IH.
Qed.

Lemma keys_filter_NoDup (P : string * V → Prop) `{!∀ kv, Decision (P kv)} m :
  NoDup (JsMap.keys m) → NoDup (JsMap.keys (filter P m)).
Proof.
  unfold JsMap.keys. intros Hnd.
  eapply sublist_NoDup; [done|].
  apply fmap_sublist, sublist_filter.
Qed.
End Facts.

End JsMapFacts.

Module JsArrayFacts.
Import JsArray.

Section Sort.
Context {A : Type} (compare : A → A → Z).

Lemma insert_sorted_perm x l : insert_sorted compare x l ≡ₚ x :: l.
Proof.
  induction l as [|y l IH]; cbn; [done|].
  destruct (compare x y <=? 0); [done|].
  rewrite IH. apply perm_swap.
Qed.

(** Sorting rearranges the elements and nothing else. *)
Lemma sort_perm l : sort compare l ≡ₚ l.
Proof.
  induction l as [|x l IH]; cbn; [done|].
  by rewrite insert_sorted_perm, IH.
Qed.

Hypothesis compare_trans :
  ∀ a b c, compare a b ≤ 0 → compare b c ≤ 0 → compare a c ≤ 0.
Hypothesis compare_total : ∀ a b, 0 < compare a b → compare b a ≤ 0.

Lemma insert_sorted_sorted x l :
  StronglySorted (λ a b, compare a b ≤ 0) l →
  StronglySorted (λ a b, compare a b ≤ 0) (insert_sorted compare x l).
Proof.
  induction l as [|y l IH]; intros Hsorted; cbn.
  - repeat constructor.
  - apply StronglySorted_cons in Hsorted as [Hy Hsorted].
    destruct (Z.leb_spec (compare x y) 0) as [Hle|Hgt].
    + apply StronglySorted_cons. split.
      * constructor; [done|].
        eapply Forall_impl; [done|]. intros z Hz. by eapply compare_trans.
      * by apply StronglySorted_cons.
    + apply StronglySorted_cons. split; [|by apply IH].
      rewrite insert_sorted_perm. constructor; [|done].
      by apply compare_total.
Qed.

Lemma sort_sorted l :
  StronglySorted (λ a b, compare a b ≤ 0) (sort compare l).
Proof.
  induction l as [|x l IH]; cbn; [constructor|].
  by apply insert_sorted_sorted.
Qed.
End Sort.

Lemma filter_none {A : Type} (P : A → Prop) `{!∀ x, Decision (P x)}
    (l : list A) :
  Forall (λ x, ¬ P x) l → filter P l = [].
Proof.
  induction 1 as [|x l Hx _ IH]; [done|].
  by rewrite filter_cons_False.
Qed.

Lemma indexOf_absent v l : v ∉ l → indexOf v l = -1.
Proof.
  induction l as [|x l IH]; intros Hout; cbn; [done|].
  apply not_elem_of_cons in Hout as [Hne Hout].
  destruct (Z.eqb_spec x v); [done|]. by rewrite IH.
Qed.

(** In a list in descending order, the first position of a value is the
    number of elements greater than it. *)
Lemma indexOf_descending v l :
  StronglySorted (λ a b, b - a ≤ 0) l →
  v ∈ l →
  indexOf v l = Z.of_nat (length (filter (λ x, v < x) l)).
Proof.
  induction l as [|x l IH]; intros Hsorted Hin.
  - by apply elem_of_nil in Hin.
  - apply StronglySorted_cons in Hsorted as [Hx Hsorted]. cbn [indexOf].
    destruct (Z.eqb_spec x v) as [->|Hne].
    + rewrite filter_cons_False by lia.
      rewrite filter_none; [done|].
      eapply Forall_impl; [done|]. intros y Hy. cbn in Hy. lia.
    + apply elem_of_cons in Hin as [->|Hin]; [done|].
      rewrite IH by done.
      rewrite Forall_forall in Hx. specialize (Hx v Hin).
      rewrite filter_cons_True by lia. cbn [length].
      destruct (Z.ltb_spec (Z.of_nat (length (filter (λ x, v < x) l))) 0);
        lia.
Qed.

Section Slice.
Context {A : Type}.
Implicit Types (xs : list A).

(** A page that starts inside the array: [limit] elements from position
    [offset] on, or fewer at the end. *)
Lemma slice_page xs offset limit :
  0 ≤ offset → 0 ≤ limit →
  slice xs (Some offset) (Some (offset + limit))
  = take (Z.to_nat limit) (drop (Z.to_nat offset) xs).
Proof.
  intros Hoffset Hlimit. unfold slice, relative_index.
  destruct (Z.ltb_spec offset 0); [lia|].
  destruct (Z.ltb_spec (offset + limit) 0); [lia|].
  destruct (decide (Z.of_nat (length xs) ≤ offset)) as [Hout|Hin].
  - rewrite (drop_ge xs (Z.to_nat offset)) by lia.
    rewrite (Z.min_r offset), (Z.min_r (offset + limit)) by lia.
    rewrite (drop_ge xs) by lia. by rewrite !take_nil.
  - rewrite (Z.min_l offset) by lia.
    destruct (decide (offset + limit ≤ Z.of_nat (length xs))).
    + rewrite Z.min_l by lia. f_equal. lia.
    + rewrite Z.min_r by lia.
      rewrite !take_ge; [done|rewrite length_drop; lia..].
Qed.

(** A [NaN] offset or limit gives the empty page. *)
Lemma slice_nan xs offset limit :
  offset = None ∨ limit = None →
  0 ≤ default 0 offset →
  slice xs offset (add_nan offset limit) = [].
Proof.
  intros Hnan Hoffset. unfold slice.
  assert (add_nan offset limit = None) as ->
    by (destruct Hnan as [-> | ->]; [done|by destruct offset]).
  cbn [relative_index]. destruct offset as [start|]; cbn in *.
  - destruct (Z.ltb_spec start 0); [lia|].
    replace (Z.to_nat (0 - _)) with 0%nat by lia. apply take_0.
  - apply take_0.
Qed.

Lemma slice_subseteq xs start end_ : slice xs start end_ ⊆ xs.
Proof.
  unfold slice. etrans; [apply subseteq_take|apply subseteq_drop].
Qed.
End Slice.

Lemma StronglySorted_impl {A : Type} (R R' : A → A → Prop) (l : list A) :
  (∀ a b, R a b → R' a b) → StronglySorted R l → StronglySorted R' l.
Proof.
  intros Himpl. induction 1 as [|x l _ IH Hx]; constructor; [done|].
  eapply Forall_impl; [done|]. intros y. apply Himpl.
Qed.

Lemma length_filter_fmap {A B : Type} (f : A → B) (P : B → Prop)
    `{!∀ y, Decision (P y)} (l : list A) :
  length (filter P (f <$> l)) = length (filter (λ x, P (f x)) l).
Proof.
  induction l as [|x l IH]; [done|].
  rewrite fmap_cons, !filter_cons. case_decide; cbn; by rewrite IH.
Qed.

(** A loop that appends at most one entry per element collects them in
    the order of the elements. *)
Lemma foldl_collect {A B : Type} (pick : A → option B) (f : list B → A → list B)
    (l : list A) (acc : list B) :
  (∀ acc x, f acc x = match pick x with
                      | Some y => (acc ++ [y])%list
                      | None => acc
                      end) →
  foldl f acc l = (acc ++ omap pick l)%list.
Proof.
  intros Hf. revert acc. induction l as [|x l IH]; intros acc; cbn.
  - by rewrite app_nil_r.
  - rewrite IH, Hf. destruct (pick x); [|done]. by rewrite <- app_assoc.
Qed.

End JsArrayFacts.

(** ** The poke service *)

Module PokeApiSpec.
Import Js Promise Logger PokeApi JsFacts JsMapFacts.

Lemma lower_key_nonempty identifier :
  identifier ≠ "" → String.eqb identifier "" = false.
Proof. intros Hne. by destruct (String.eqb_spec identifier ""). Qed.

(** X1. Once a request has fetched a pokemon from the external API and
    replied 200, a request for the same name in any letter case that
    arrives less than [CACHE_TTL] after the value was stored gets the same
    reply from the cache: no call goes out and the cache is unchanged. *)
Theorem fetched_then_served_from_cache
    (cache : list (string * cache_entry))
    (identifier identifier' : string) (now stored_at now' stored_at' : Z)
    (external external' : settled axios_response) :
  let first := get_pokemon cache identifier now stored_at external in
  called first ≠ [] →
  statusCode (sent first) = 200 →
  identifier' ≠ "" →
  toLowerCase identifier' = toLowerCase identifier →
  now' - stored_at < CACHE_TTL →
  get_pokemon (cache_after first) identifier' now' stored_at' external'
  = {| sent := sent first; cache_after := cache_after first; called := [] |}.
Proof.
  intros first Hcalled Hok Hne Hsame Hfresh. subst first.
  unfold get_pokemon in *.
  rewrite (lower_key_nonempty identifier') by done. rewrite Hsame.
  destruct (String.eqb identifier ""); [done|].
  destruct (match JsMap.get _ cache with Some _ => _ | None => _ end)
    as [hit|]; [done|].
  rewrite SearchApiSpec.measureExecutionTime_id in *.
  destruct external as [response|error].
  - destruct (pokemonData (resp_data response)) as [d|]; [|done].
    cbn [cache_after sent]. rewrite get_set_eq. cbn [timestamp data].
    destruct (Z.ltb_spec (now' - stored_at) CACHE_TTL); [done|lia].
  - cbn in Hok.
    destruct (response error) as [r|]; [destruct (status r =? 404)|]; done.
Qed.

Lemma fetched_then_served_from_cache_witness :
  get_pokemon
    (cache_after (get_pokemon [] "Pikachu" 1000 1005
                    (Samples.ok MoreSamples.pokeapi_pikachu)))
    "pikachu" 300000 300001 Samples.refused
  = {| sent := sent (get_pokemon [] "Pikachu" 1000 1005
                       (Samples.ok MoreSamples.pokeapi_pikachu));
       cache_after := cache_after (get_pokemon [] "Pikachu" 1000 1005
                                     (Samples.ok MoreSamples.pokeapi_pikachu));
       called := [] |}.
Proof.
  apply (fetched_then_served_from_cache [] "Pikachu" "pikachu"
           1000 1005 300000 300001
           (Samples.ok MoreSamples.pokeapi_pikachu) Samples.refused).
  - discriminate.
  - reflexivity.
  - discriminate.
  - reflexivity.
  - reflexivity.
Defined.

Lemma get_pokemon_served cache identifier now stored_at external d :
  identifier ≠ "" →
  served cache identifier now = Some d →
  get_pokemon cache identifier now stored_at external
  = {| sent := {| statusCode := 200; content := Pokemon d |};
       cache_after := cache; called := [] |}.
Proof.
  intros Hne Hserved. unfold get_pokemon, served in *.
  rewrite lower_key_nonempty by done. by rewrite Hserved.
Qed.

Lemma served_cleanup cache identifier now :
  NoDup (JsMap.keys cache) →
  served (cleanup now cache) identifier now = served cache identifier now.
Proof.
  intros Hnd. unfold served, cleanup. rewrite get_filter by done.
  destruct (JsMap.get _ cache) as [entry|]; [|done].
  cbn. case_decide as Hold; [done|].
  destruct (Z.ltb_spec (now - timestamp entry) CACHE_TTL); [lia|done].
Qed.

(** X2. The periodic cleanup keeps exactly the entries that are at most
    [CACHE_TTL] old, each with its value and in the order they had: an
    entry is in the cache afterwards if and only if it was there before
    and its age is at most [CACHE_TTL] (an entry of exactly that age
    stays, though it is no longer served).  The cleanup is invisible to a
    request made at that moment: the reply and the outbound call are the
    same with and without it. *)
Theorem cleanup_keeps_what_is_served
    (cache : list (string * cache_entry)) (identifier : string)
    (now stored_at : Z) (external : settled axios_response) :
  NoDup (JsMap.keys cache) →
  let plain := get_pokemon cache identifier now stored_at external in
  let cleaned :=
    get_pokemon (cleanup now cache) identifier now stored_at external in
  sent cleaned = sent plain
  ∧ called cleaned = called plain
  ∧ Forall (λ kv, now - timestamp kv.2 ≤ CACHE_TTL) (cleanup now cache)
  ∧ (∀ key entry,
       JsMap.get key (cleanup now cache) = Some entry
       ↔ JsMap.get key cache = Some entry
         ∧ now - timestamp entry ≤ CACHE_TTL)
  ∧ cleanup now cache `sublist_of` cache.
Proof.
  intros Hnd plain cleaned. subst plain cleaned.
  assert (served (cleanup now cache) identifier now
          = served cache identifier now) as Hserved
    by by apply served_cleanup.
  unfold get_pokemon. fold (served cache identifier now).
  fold (served (cleanup now cache) identifier now). rewrite Hserved.
  split_and!.
  - destruct (String.eqb identifier ""); [done|].
    destruct (served cache identifier now); [done|].
    by destruct (measureExecutionTime _) as [[?|?]|?].
  - destruct (String.eqb identifier ""); [done|].
    destruct (served cache identifier now); [done|].
    by destruct (measureExecutionTime _) as [[?|?]|?].
  - unfold cleanup. apply Forall_forall. intros kv Hkv.
    apply list_elem_of_filter in Hkv as [Hage _]. lia.
  - intros key entry. unfold cleanup. rewrite get_filter by done.
    destruct (JsMap.get key cache) as [entry'|];
      [|split; [done|by intros [? _]]].
    case_decide as Hage; cbn in Hage.
    + split; [intros [= <-]; split; [done|lia]|by intros [? _]].
    + split; [done|]. intros [[= <-] ?]. lia.
  - apply sublist_filter.
Qed.

Lemma cleanup_keeps_what_is_served_witness :
  let cache := [("pokemon_charizard", MoreSamples.fresh_entry)] in
  let plain := get_pokemon cache "Charizard" 301000 301001 Samples.refused in
  let cleaned :=
    get_pokemon (cleanup 301000 cache) "Charizard" 301000 301001
                Samples.refused in
  sent cleaned = sent plain
  ∧ called cleaned = called plain
  ∧ Forall (λ kv, 301000 - timestamp kv.2 ≤ CACHE_TTL) (cleanup 301000 cache)
  ∧ (∀ key entry,
       JsMap.get key (cleanup 301000 cache) = Some entry
       ↔ JsMap.get key cache = Some entry
         ∧ 301000 - timestamp entry ≤ CACHE_TTL)
  ∧ cleanup 301000 cache `sublist_of` cache.
Proof.
  apply (cleanup_keeps_what_is_served
           [("pokemon_charizard", MoreSamples.fresh_entry)]
           "Charizard" 301000 301001 Samples.refused).
  apply NoDup_singleton.
Defined.

(** X3. Only a value fetched with success is cached: when the reply is
    not 200, or when no call went out, the cache is left as it was.  A
    failed call gives 404 when the external API answered 404 and 500
    otherwise. *)
Theorem only_fetched_data_is_cached
    (cache : list (string * cache_entry)) (identifier : string)
    (now stored_at : Z) (external : settled axios_response) :
  let h := get_pokemon cache identifier now stored_at external in
  (statusCode (sent h) ≠ 200 ∨ called h = [] → cache_after h = cache)
  ∧ (∀ error, external = Rejected error → called h ≠ [] →
       sent h
       = match response error with
         | Some r =>
             if status r =? 404 then
               {| statusCode := 404; content := NotFound identifier |}
             else {| statusCode := 500;
                     content := Failed (Some (message error)) |}
         | None => {| statusCode := 500;
                      content := Failed (Some (message error)) |}
         end).
Proof.
  cbn zeta. unfold get_pokemon. fold (served cache identifier now).
  destruct (String.eqb identifier ""); [by split|].
  destruct (served cache identifier now); [by split|].
  rewrite SearchApiSpec.measureExecutionTime_id.
  destruct external as [resp|error].
  - destruct (pokemonData (resp_data resp)); cbn; split;
      try done; intros [?|?]; done.
  - cbn. split; [done|]. intros error' [= <-] _.
    by destruct (response error) as [r|].
Qed.

(** X4. The cache never holds two entries for one key, and a request adds
    at most one entry. *)
Theorem cache_keys_stay_distinct
    (cache : list (string * cache_entry)) (identifier : string)
    (now stored_at : Z) (external : settled axios_response) :
  NoDup (JsMap.keys cache) →
  let h := get_pokemon cache identifier now stored_at external in
  NoDup (JsMap.keys (cache_after h))
  ∧ NoDup (JsMap.keys (cleanup now cache))
  ∧ (length (cache_after h) ≤ length cache + 1)%nat.
Proof.
  intros Hnd h. subst h. split; [|split].
  - unfold get_pokemon. destruct (String.eqb identifier ""); [done|].
    destruct (match JsMap.get _ cache with Some _ => _ | None => _ end);
      [done|].
    destruct (measureExecutionTime _) as [[d|?]|?]; try done.
    by apply keys_set_NoDup.
  - by apply keys_filter_NoDup.
  - unfold get_pokemon. destruct (String.eqb identifier ""); [cbn; lia|].
    destruct (match JsMap.get _ cache with Some _ => _ | None => _ end);
      [cbn; lia|].
    destruct (measureExecutionTime _) as [[d|?]|?]; cbn; try lia.
    rewrite <- (length_fmap fst (JsMap.set _ _ _)).
    fold (JsMap.keys (JsMap.set ("pokemon_" ++ toLowerCase identifier)
                        {| data := d; timestamp := stored_at |} cache)).
    rewrite keys_set. case_decide.
    + unfold JsMap.keys. rewrite length_fmap. lia.
    + unfold JsMap.keys. rewrite length_app, length_fmap. cbn. lia.
Qed.

Lemma cache_keys_stay_distinct_witness :
  let cache := [("pokemon_charizard", MoreSamples.fresh_entry)] in
  let h := get_pokemon cache "Pikachu" 1000 1005
             (Samples.ok MoreSamples.pokeapi_pikachu) in
  NoDup (JsMap.keys (cache_after h))
  ∧ NoDup (JsMap.keys (cleanup 1000 cache))
  ∧ (length (cache_after h) ≤ length cache + 1)%nat.
Proof.
  apply (cache_keys_stay_distinct
           [("pokemon_charizard", MoreSamples.fresh_entry)]
           "Pikachu" 1000 1005 (Samples.ok MoreSamples.pokeapi_pikachu)).
  apply NoDup_singleton.
Defined.

Lemma object_keys (fields : list (string * option json)) :
  ∃ kvs, object fields = JObj kvs ∧ kvs.*1 `sublist_of` fields.*1.
Proof.
  unfold object. eexists. split; [reflexivity|].
  induction fields as [|[k [v|]] fields IH]; cbn.
  - done.
  - by apply sublist_skip.
  - by apply sublist_cons.
Qed.

Lemma member_map_array k f kvs out :
  member_map k f (JObj kvs) = Some out → is_array (field k (JObj kvs)).
Proof.
  unfold member_map. cbn [member mbind option_bind].
  destruct (field k (JObj kvs)) as [[| | | |xs|]|]; try done.
  intros _. by exists xs.
Qed.

Lemma member2_present k1 k2 kvs o :
  member2 k1 k2 (JObj kvs) = Some o →
  ∃ inner, field k1 (JObj kvs) = Some inner ∧ inner ≠ JNull.
Proof.
  unfold member2. cbn [member mbind option_bind].
  destruct (field k1 (JObj kvs)) as [inner|]; [|done].
  intros Hinner. exists inner. split; [done|]. by intros ->.
Qed.

Lemma pokemonData_Some response_data out :
  pokemonData response_data = Some out →
  has_lists response_data
  ∧ ∃ kvs, out = JObj kvs ∧ kvs.*1 `sublist_of` selected_fields.
Proof.
  intros Hout. unfold pokemonData in Hout.
  destruct response_data as [| | | | |kvs]; try discriminate.
  do 5 (apply bind_Some in Hout as (? & _ & Hout)).
  apply bind_Some in Hout as (types & Htypes & Hout).
  apply bind_Some in Hout as (abilities & Habilities & Hout).
  apply bind_Some in Hout as (stats & Hstats & Hout).
  apply bind_Some in Hout as (front_default & Hsprites & Hout).
  do 3 (apply bind_Some in Hout as (? & _ & Hout)).
  injection Hout as <-. split.
  - repeat split; eauto using member_map_array, member2_present.
  - apply object_keys.
Qed.

(** X5. When the external API answers with a payload from which the
    selection cannot be built (its [types], [abilities] or [stats] is not
    an array, or [sprites] is missing or [null]), the reply is 500 and
    nothing is cached.  A 200 reply carries an object with no other fields
    than the nine selected ones. *)
Theorem malformed_payload_is_an_error
    (cache : list (string * cache_entry)) (identifier : string)
    (now stored_at : Z) (response : axios_response) :
  identifier ≠ "" →
  served cache identifier now = None →
  let h := get_pokemon cache identifier now stored_at (Fulfilled response) in
  (¬ has_lists (resp_data response) →
     h = {| sent := {| statusCode := 500; content := Failed None |};
            cache_after := cache;
            called := ["https://pokeapi.co/api/v2/pokemon/"
                         ++ toLowerCase identifier] |})
  ∧ (statusCode (sent h) = 200 →
       ∃ kvs, content (sent h) = Pokemon (JObj kvs)
              ∧ kvs.*1 `sublist_of` selected_fields).
Proof.
  intros Hne Hserved. cbn zeta. unfold get_pokemon.
  fold (served cache identifier now).
  rewrite lower_key_nonempty, Hserved by done.
  rewrite SearchApiSpec.measureExecutionTime_id.
  destruct (pokemonData (resp_data response)) as [out|] eqn:Hout.
  - apply pokemonData_Some in Hout as [Hlists (kvs & -> & Hkeys)].
    split; [done|]. intros _. by exists kvs.
  - by split.
Qed.

Lemma malformed_payload_is_an_error_witness :
  let h := get_pokemon [] "ditto" 1000 1005
             (Samples.ok (JObj [("id", JNum 132); ("types", JNull)])) in
  (¬ has_lists (JObj [("id", JNum 132); ("types", JNull)]) →
     h = {| sent := {| statusCode := 500; content := Failed None |};
            cache_after := [];
            called := ["https://pokeapi.co/api/v2/pokemon/"
                         ++ toLowerCase "ditto"] |})
  ∧ (statusCode (sent h) = 200 →
       ∃ kvs, content (sent h) = Pokemon (JObj kvs)
              ∧ kvs.*1 `sublist_of` selected_fields).
Proof.
  apply (malformed_payload_is_an_error [] "ditto" 1000 1005
           {| resp_status := 200; resp_headers := ∅;
              resp_data := JObj [("id", JNum 132); ("types", JNull)] |}).
  - discriminate.
  - reflexivity.
Defined.

(** X6. Clearing the cache reports how many entries it held, and the next
    request for any pokemon goes to the external API. *)
Theorem clear_forces_refetch
    (cache : list (string * cache_entry)) (identifier : string)
    (now stored_at : Z) (external : settled axios_response) :
  identifier ≠ "" →
  let cleared := clear_cache cache in
  sent cleared = {| statusCode := 200;
                    content := Cleared (Z.of_nat (length cache)) |}
  ∧ called (get_pokemon (cache_after cleared) identifier now stored_at
                        external)
    = ["https://pokeapi.co/api/v2/pokemon/" ++ toLowerCase identifier].
Proof.
  intros Hne. split; [done|]. cbn. unfold get_pokemon.
  rewrite lower_key_nonempty by done. cbn.
  by destruct (measureExecutionTime _) as [[?|?]|?].
Qed.

Lemma clear_forces_refetch_witness :
  let cleared :=
    clear_cache [("pokemon_charizard", MoreSamples.fresh_entry)] in
  sent cleared = {| statusCode := 200; content := Cleared 1 |}
  ∧ called (get_pokemon (cache_after cleared) "Charizard" 1001 1002
                        Samples.refused)
    = ["https://pokeapi.co/api/v2/pokemon/charizard"].
Proof.
  apply (clear_forces_refetch
           [("pokemon_charizard", MoreSamples.fresh_entry)]
           "Charizard" 1001 1002 Samples.refused).
  discriminate.
Defined.

Lemma list_pokemon_called
    (cache : list (string * cache_entry)) (limit offset : option qval)
    (external : settled axios_response) (l o : string) :
  from_option toString (Some "20") limit = Some l →
  from_option toString (Some "0") offset = Some o →
  let h := list_pokemon cache limit offset external in
  cache_after h = cache
  ∧ called h = ["https://pokeapi.co/api/v2/pokemon?limit=" ++ l
                  ++ "&offset=" ++ o]
  ∧ (statusCode (sent h) = 200 ∨ statusCode (sent h) = 500)
  ∧ (statusCode (sent h) = 200
     ↔ ∃ response kvs results,
         external = Fulfilled response
         ∧ resp_data response = JObj kvs
         ∧ field "results" (JObj kvs) = Some results
         ∧ results ≠ JNull)
  ∧ (∀ page, content (sent h) = PokemonList page →
       ∃ kvs, page = JObj kvs
              ∧ kvs.*1 `sublist_of` ["count"; "next"; "previous"; "results"]).
Proof.
  intros Hl Ho. cbn zeta. unfold list_pokemon. rewrite Hl, Ho.
  rewrite SearchApiSpec.measureExecutionTime_id.
  destruct external as [response|error]; cbn [sent cache_after].
  - destruct (resp_data response) as [| | | | |kvs] eqn:Hdata;
      cbn [member mbind option_bind].
    1-5: split_and!; try done; eauto;
         split; [done|]; intros (? & ? & ? & [= <-] & Hobj & _); congruence.
    destruct (field "results" (JObj kvs)) as [results|] eqn:Hres.
    + destruct results as [| | | | |] eqn:Hresults.
      1: { cbn. split_and!; try done; eauto.
           split; [done|]. intros (? & kvs' & r & [= <-] & Hobj & Hres' & Hne).
           change (field "results" (JObj kvs') = Some r) in Hres'.
           congruence. }
      all: cbn; split_and!; try done; eauto;
        [ split; [|done]; intros _; eexists response, kvs, _;
          split_and!; [done..|]; discriminate
        | intros page [= <-]; apply object_keys ].
    + cbn. split_and!; try done; eauto.
      split; [done|]. intros (? & kvs' & r & [= <-] & Hobj & Hres' & _).
      change (field "results" (JObj kvs') = Some r) in Hres'.
      congruence.
  - cbn. split_and!; try done; eauto.
    split; [done|]. by intros (? & ? & ? & ? & _).
Qed.

(** X21. The listing of pokemon calls the external API exactly when the
    conversion of [limit] and of [offset] to a string does not throw.  It
    replies 200 exactly when, moreover, the external API answered with an
    object whose [results] is present and not [null]; the reply then has
    no other fields than [count], [next], [previous] and [results].  In
    every other case the reply is 500, also when the call itself
    succeeded.  The cache is never touched. *)
Theorem list_needs_results
    (cache : list (string * cache_entry)) (limit offset : option qval)
    (external : settled axios_response) :
  let h := list_pokemon cache limit offset external in
  cache_after h = cache
  ∧ (called h ≠ [] ↔ convertible limit ∧ convertible offset)
  ∧ (statusCode (sent h) = 200 ∨ statusCode (sent h) = 500)
  ∧ (statusCode (sent h) = 200
     ↔ convertible limit ∧ convertible offset
       ∧ ∃ response kvs results,
           external = Fulfilled response
           ∧ resp_data response = JObj kvs
           ∧ field "results" (JObj kvs) = Some results
           ∧ results ≠ JNull)
  ∧ (∀ page, content (sent h) = PokemonList page →
       ∃ kvs, page = JObj kvs
              ∧ kvs.*1 `sublist_of` ["count"; "next"; "previous"; "results"]).
Proof.
  pose proof (convertible_spec "20" limit) as Hlimit.
  pose proof (convertible_spec "0" offset) as Hoffset.
  destruct (from_option toString (Some "20") limit) as [l|] eqn:Hl;
    [destruct (from_option toString (Some "0") offset) as [o|] eqn:Ho|].
  - destruct (list_pokemon_called cache limit offset external l o Hl Ho)
      as (Hcache & Hcalled & Hcode & Hok & Hpage).
    assert (convertible limit) by (by apply Hlimit).
    assert (convertible offset) by (by apply Hoffset).
    cbn zeta. split_and!; [done| |done| |done].
    + rewrite Hcalled. by split.
    + rewrite Hok. split; [by intros ?|by intros (_ & _ & ?)].
  - assert (¬ convertible offset) as Hno
      by (intros [? [=]]%Hoffset).
    cbn zeta. unfold list_pokemon. rewrite Hl, Ho. cbn.
    split_and!; [done| |by right| |done];
      (split; [done|intros ?; exfalso; tauto]).
  - assert (¬ convertible limit) as Hno
      by (intros [? [=]]%Hlimit).
    cbn zeta. unfold list_pokemon. rewrite Hl. cbn.
    split_and!; [done| |by right| |done];
      (split; [done|intros ?; exfalso; tauto]).
Qed.

End PokeApiSpec.

(** ** The stats service *)

Module StatsApiSpec.
Import Js StatsApi JsMapFacts JsArrayFacts.

(** X7. A mock record is consistent: its total is the sum of its six base
    statistics, each of which lies between 20 and 119, so the total lies
    between 120 and 714; its generation lies between 1 and 8 and its name
    is in lower case. *)
Theorem mock_stats_consistent (pokemonName : string) (d : draws) :
  in_range d →
  let mock := generateMockStats pokemonName d in
  total mock = hp mock + attack mock + defense mock
               + sp_attack mock + sp_defense mock + speed mock
  ∧ Forall (λ s, 20 ≤ stat_value s mock ≤ 119) base_stats
  ∧ 120 ≤ total mock ≤ 714
  ∧ 1 ≤ generation mock ≤ 8
  ∧ name mock = toLowerCase pokemonName.
Proof.
  intros (? & ? & ? & ? & ? & ? & ?). cbn.
  split; [lia|]. split; [repeat constructor; cbn; lia|].
  split; [lia|]. split; [lia|done].
Qed.

Lemma mock_stats_consistent_witness :
  let mock := generateMockStats "Ditto" MoreSamples.mock_draws in
  total mock = hp mock + attack mock + defense mock
               + sp_attack mock + sp_defense mock + speed mock
  ∧ Forall (λ s, 20 ≤ stat_value s mock ≤ 119) base_stats
  ∧ 120 ≤ total mock ≤ 714
  ∧ 1 ≤ generation mock ≤ 8
  ∧ name mock = toLowerCase "Ditto".
Proof.
  apply (mock_stats_consistent "Ditto" MoreSamples.mock_draws).
  unfold in_range, MoreSamples.mock_draws. cbn. lia.
Defined.

Lemma loaded_isDataLoaded st : isDataLoaded (loaded st) = true.
Proof. unfold loaded. by destruct (isDataLoaded st) eqn:Hst. Qed.

Lemma loaded_idemp st : loaded (loaded st) = loaded st.
Proof. unfold loaded at 1. by rewrite loaded_isDataLoaded. Qed.

Lemma get_stats_unfold st pokemonName d :
  pokemonName ≠ "" →
  get_stats st pokemonName d
  = match JsMap.get (toLowerCase pokemonName) (pokemonStatsDB (loaded st)) with
    | None =>
        ({| statusCode := 200;
            content := Stats (generateMockStats pokemonName d) |},
         {| pokemonStatsDB :=
              JsMap.set (toLowerCase pokemonName)
                        (generateMockStats pokemonName d)
                        (pokemonStatsDB (loaded st));
            isDataLoaded := true |})
    | Some stats =>
        ({| statusCode := 200; content := Stats stats |}, loaded st)
    end.
Proof.
  intros Hne. unfold get_stats. fold (loaded st).
  rewrite PokeApiSpec.lower_key_nonempty by done.
  by rewrite loaded_isDataLoaded.
Qed.

(** X8. The stats of a name are remembered: after a request for a name,
    every later request for that name, in any letter case and whatever the
    random draws, gets the same reply and leaves the state as it is. *)
Theorem stats_are_remembered
    (st : state) (pokemonName pokemonName' : string) (d d' : draws) :
  pokemonName ≠ "" →
  pokemonName' ≠ "" →
  toLowerCase pokemonName' = toLowerCase pokemonName →
  let first := get_stats st pokemonName d in
  get_stats first.2 pokemonName' d' = first.
Proof.
  intros Hne Hne' Hsame. cbn zeta.
  rewrite (get_stats_unfold st) by done.
  destruct (JsMap.get _ (pokemonStatsDB (loaded st))) as [stats|] eqn:Hget;
    cbn [snd].
  - rewrite get_stats_unfold, loaded_idemp, Hsame, Hget by done. done.
  - rewrite get_stats_unfold by done. unfold loaded at 1 2. cbn.
    by rewrite Hsame, get_set_eq.
Qed.

Lemma stats_are_remembered_witness :
  get_stats (get_stats startup "Ditto" MoreSamples.mock_draws).2
            "DITTO" MoreSamples.other_draws
  = get_stats startup "Ditto" MoreSamples.mock_draws.
Proof.
  apply (stats_are_remembered startup "Ditto" "DITTO"
           MoreSamples.mock_draws MoreSamples.other_draws);
    [discriminate|discriminate|reflexivity].
Defined.

(** X9. Once the data is loaded, a request never changes the stats that
    the database holds for a name. *)
Theorem known_stats_are_kept
    (st : state) (pokemonName key : string) (d : draws)
    (stats : pokemon_stats) :
  isDataLoaded st = true →
  JsMap.get key (pokemonStatsDB st) = Some stats →
  JsMap.get key (pokemonStatsDB (get_stats st pokemonName d).2) = Some stats.
Proof.
  intros Hloaded Hget. unfold get_stats.
  destruct (String.eqb pokemonName ""); [done|]. rewrite Hloaded.
  destruct (JsMap.get (toLowerCase pokemonName) (pokemonStatsDB st))
    as [found|] eqn:Hname; [done|].
  cbn. rewrite get_set_ne; [done|]. intros Heq. rewrite Heq in Hname.
  congruence.
Qed.

Lemma known_stats_are_kept_witness :
  JsMap.get "mew"
    (pokemonStatsDB (get_stats startup "Ditto" MoreSamples.mock_draws).2)
  = Some (sample "mew" 600 100 100 100 100 100 100 true).
Proof.
  apply (known_stats_are_kept startup "Ditto" "mew" MoreSamples.mock_draws);
    reflexivity.
Defined.

(** X10. The six sample pokemon are served as they are, in any letter
    case of the name, and never replaced by mock data. *)
Theorem samples_are_served
    (pokemonName : string) (d : draws) (p : pokemon_stats) :
  p ∈ samplePokemonStats →
  toLowerCase pokemonName = name p →
  get_stats startup pokemonName d
  = ({| statusCode := 200; content := Stats p |}, startup).
Proof.
  intros Hp Hname.
  assert (pokemonName ≠ "") as Hne.
  { intros ->.
    repeat (apply elem_of_cons in Hp as [->|Hp]; [discriminate|]).
    by apply elem_of_nil in Hp. }
  rewrite get_stats_unfold, Hname by done.
  repeat (apply elem_of_cons in Hp as [->|Hp]; [reflexivity|]).
  by apply elem_of_nil in Hp.
Qed.

Lemma samples_are_served_witness :
  get_stats startup "MewTwo" MoreSamples.mock_draws
  = ({| statusCode := 200;
        content := Stats (sample "mewtwo" 680 106 110 90 154 90 130 true) |},
     startup).
Proof.
  apply (samples_are_served "MewTwo" MoreSamples.mock_draws
           (sample "mewtwo" 680 106 110 90 154 90 130 true)).
  - do 4 right. left.
  - reflexivity.
Defined.

(** X11. The ranking of a value that occurs among the values of a
    statistic is one more than the number of pokemon with a greater value
    (ties share the best rank); a value that does not occur ranks 0. *)
Theorem ranking_counts_greater
    (allPokemon : list pokemon_stats) (s : stat) (value : Z) :
  (value ∈ stat_value s <$> allPokemon →
     calculateRanking allPokemon s value
     = 1 + Z.of_nat (length (filter (λ p, value < stat_value s p) allPokemon)))
  ∧ (value ∉ stat_value s <$> allPokemon →
       calculateRanking allPokemon s value = 0).
Proof.
  unfold calculateRanking. split; intros Hvalue.
  - rewrite indexOf_descending.
    + rewrite (sort_perm (λ a b, b - a)), length_filter_fmap. lia.
    + apply sort_sorted; intros; lia.
    + by rewrite (sort_perm (λ a b, b - a)).
  - rewrite indexOf_absent; [done|].
    by rewrite (sort_perm (λ a b, b - a)).
Qed.

Lemma identifyStrengths_perm pokemon :
  identifyStrengths pokemon ≡ₚ omap (strength pokemon) base_stats.
Proof.
  unfold identifyStrengths. rewrite sort_perm.
  rewrite (foldl_collect (strength pokemon)); [done|].
  intros acc s. unfold strength.
  by destruct (stat_value s pokemon >? 80), (stat_value s pokemon >? 60).
Qed.

Lemma identifyWeaknesses_perm pokemon :
  identifyWeaknesses pokemon ≡ₚ omap (weakness pokemon) base_stats.
Proof.
  unfold identifyWeaknesses. rewrite sort_perm.
  rewrite (foldl_collect (weakness pokemon)); [done|].
  intros acc s. unfold weakness.
  by destruct (stat_value s pokemon <? 40), (stat_value s pokemon <? 60).
Qed.

(** X12. The strengths of a pokemon are exactly its base statistics above
    60 (high above 80), by descending value; its weaknesses are exactly
    those below 60 (low below 40), by ascending value.  No statistic is
    both, and a statistic of exactly 60 is neither. *)
Theorem strengths_and_weaknesses (pokemon : pokemon_stats) :
  (∀ r, r ∈ identifyStrengths pokemon
        ↔ ∃ s, s ∈ base_stats ∧ 60 < stat_value s pokemon
               ∧ r = {| rated_stat := s; value := stat_value s pokemon;
                        level := if 80 <? stat_value s pokemon
                                 then "high" else "moderate" |})
  ∧ (∀ r, r ∈ identifyWeaknesses pokemon
          ↔ ∃ s, s ∈ base_stats ∧ stat_value s pokemon < 60
                 ∧ r = {| rated_stat := s; value := stat_value s pokemon;
                          level := if stat_value s pokemon <? 40
                                   then "low" else "moderate" |})
  ∧ StronglySorted (λ a b, value b ≤ value a) (identifyStrengths pokemon)
  ∧ StronglySorted (λ a b, value a ≤ value b) (identifyWeaknesses pokemon)
  ∧ (∀ r r', r ∈ identifyStrengths pokemon →
             r' ∈ identifyWeaknesses pokemon →
             rated_stat r ≠ rated_stat r').
Proof.
  assert (∀ r, r ∈ identifyStrengths pokemon
        ↔ ∃ s, s ∈ base_stats ∧ 60 < stat_value s pokemon
               ∧ r = {| rated_stat := s; value := stat_value s pokemon;
                        level := if 80 <? stat_value s pokemon
                                 then "high" else "moderate" |}) as Hstrong.
  { intros r. rewrite identifyStrengths_perm, list_elem_of_omap.
    unfold strength. split; intros (s & Hs & Hr); exists s.
    - rewrite !Z.gtb_ltb in Hr.
      destruct (Z.ltb_spec 80 (stat_value s pokemon));
        [|destruct (Z.ltb_spec 60 (stat_value s pokemon))];
        simplify_eq; (split; [done|]); (split; [lia|done]).
    - split; [done|]. destruct Hr as [Hgt ->]. rewrite !Z.gtb_ltb.
      destruct (Z.ltb_spec 80 (stat_value s pokemon)); [done|].
      destruct (Z.ltb_spec 60 (stat_value s pokemon)); [done|lia]. }
  assert (∀ r, r ∈ identifyWeaknesses pokemon
          ↔ ∃ s, s ∈ base_stats ∧ stat_value s pokemon < 60
                 ∧ r = {| rated_stat := s; value := stat_value s pokemon;
                          level := if stat_value s pokemon <? 40
                                   then "low" else "moderate" |}) as Hweak.
  { intros r. rewrite identifyWeaknesses_perm, list_elem_of_omap.
    unfold weakness. split; intros (s & Hs & Hr); exists s.
    - destruct (Z.ltb_spec (stat_value s pokemon) 40);
        [|destruct (Z.ltb_spec (stat_value s pokemon) 60)];
        simplify_eq; (split; [done|]); (split; [lia|done]).
    - split; [done|]. destruct Hr as [Hlt ->].
      destruct (Z.ltb_spec (stat_value s pokemon) 40); [done|].
      destruct (Z.ltb_spec (stat_value s pokemon) 60); [done|lia]. }
  split; [done|]. split; [done|]. split; [|split].
  - unfold identifyStrengths.
    eapply StronglySorted_impl; [|apply sort_sorted; intros; lia].
    intros a b Hab. cbn in Hab. lia.
  - unfold identifyWeaknesses.
    eapply StronglySorted_impl; [|apply sort_sorted; intros; lia].
    intros a b Hab. cbn in Hab. lia.
  - intros r r' Hr Hr' Hsame.
    apply Hstrong in Hr as (s & _ & Hgt & ->).
    apply Hweak in Hr' as (s' & _ & Hlt & ->).
    cbn in Hsame. subst s'. lia.
Qed.

Lemma selected_spec st generation_query legendary_query p :
  p ∈ selected st generation_query legendary_query
  ↔ p ∈ JsMap.values (pokemonStatsDB (loaded st))
    ∧ passes generation_query legendary_query p.
Proof.
  unfold selected, passes. rewrite !list_elem_of_In.
  destruct legendary_query as [q|], generation_query as [|n|];
    rewrite ?filter_In, ?Z.eqb_eq, ?Bool.eqb_true_iff; intuition congruence.
Qed.

(** X13. A listing with a valid offset and limit reports the number of
    pokemon that pass its filters and returns [limit] of them from
    position [offset] on (fewer at the end); consecutive pages join into
    the larger page, and the count is the same on every page.  When the
    offset or the limit, or both, is not a number the page is empty. *)
Theorem stats_pages
    (st : state) (offset limit : Z)
    (generation_query : generation_filter) (legendary_query : option qval) :
  0 ≤ offset → 0 ≤ limit →
  let page offset limit :=
    (list_stats st offset limit generation_query legendary_query).1 in
  let all := selected st generation_query legendary_query in
  page (Some offset) (Some limit)
  = {| statusCode := 200;
       content := Listing (Z.of_nat (length all)) (Some offset) (Some limit)
                    (take (Z.to_nat limit) (drop (Z.to_nat offset) all)) |}
  ∧ (∀ limit', 0 ≤ limit' →
       (listed (page (Some offset) (Some limit))
          ++ listed (page (Some (offset + limit)) (Some limit')))%list
       = listed (page (Some offset) (Some (limit + limit'))))
  ∧ listed (page None (Some limit)) = []
  ∧ listed (page (Some offset) None) = []
  ∧ listed (page None None) = [].
Proof.
  intros Hoffset Hlimit page all.
  assert (∀ o l, page o l
    = {| statusCode := 200;
         content := Listing (Z.of_nat (length all)) o l
                      (JsArray.slice all o (JsArray.add_nan o l)) |}) as Hpage
    by done.
  assert (∀ o l, 0 ≤ o → 0 ≤ l →
            listed (page (Some o) (Some l))
            = take (Z.to_nat l) (drop (Z.to_nat o) all)) as Hlisted.
  { intros o l Ho Hl. rewrite Hpage. cbn [listed content JsArray.add_nan].
    by apply slice_page. }
  split_and!.
  - rewrite Hpage. cbn [JsArray.add_nan]. by rewrite slice_page.
  - intros limit' Hlimit'. rewrite !Hlisted by lia.
    replace (Z.to_nat (limit + limit'))
      with (Z.to_nat limit + Z.to_nat limit')%nat by lia.
    rewrite <- take_take_drop, drop_drop. do 3 f_equal. lia.
  - rewrite Hpage. cbn [listed content]. by apply slice_nan; [left|].
  - rewrite Hpage. cbn [listed content]. by apply slice_nan; [right|].
  - rewrite Hpage. cbn [listed content]. by apply slice_nan; [left|].
Qed.

Lemma stats_pages_witness :
  let page offset limit :=
    (list_stats startup offset limit AnyGeneration (Some (QStr "true"))).1 in
  let all := selected startup AnyGeneration (Some (QStr "true")) in
  page (Some 1) (Some 5)
  = {| statusCode := 200;
       content := Listing (Z.of_nat (length all)) (Some 1) (Some 5)
                    (take (Z.to_nat 5) (drop (Z.to_nat 1) all)) |}
  ∧ (∀ limit', 0 ≤ limit' →
       (listed (page (Some 1) (Some 5))
          ++ listed (page (Some (1 + 5)) (Some limit')))%list
       = listed (page (Some 1) (Some (5 + limit'))))
  ∧ listed (page None (Some 5)) = []
  ∧ listed (page (Some 1) None) = []
  ∧ listed (page None None) = [].
Proof.
  apply (stats_pages startup 1 5 AnyGeneration (Some (QStr "true"))); lia.
Defined.

(** X14. The pokemon of a listing all pass its filters.  In particular a
    [legendary] parameter that is not the text [true] (such as [TRUE],
    [1] or [yes]) lists only pokemon that are not legendary, and the text
    [true] lists only legendary ones, for every offset and limit. *)
Theorem listing_respects_filters
    (st : state) (offset limit : option Z)
    (generation_query : generation_filter) (legendary_query : option qval)
    (p : pokemon_stats) :
  p ∈ listed (list_stats st offset limit generation_query legendary_query).1 →
  p ∈ JsMap.values (pokemonStatsDB (loaded st))
  ∧ passes generation_query legendary_query p
  ∧ (legendary_query = Some (QStr "true") → legendary p = true)
  ∧ (∀ q, legendary_query = Some q → q ≠ QStr "true" →
          legendary p = false).
Proof.
  intros Hp.
  assert (p ∈ selected st generation_query legendary_query) as Hsel.
  { eapply slice_subseteq. exact Hp. }
  apply selected_spec in Hsel as [Hin Hpass].
  split; [done|]. split; [done|]. split.
  - intros ->. by destruct Hpass as [_ ->].
  - intros q -> Hq. destruct Hpass as [_ ->].
    destruct q as [s| |]; try done.
    destruct (String.eqb_spec s "true") as [->|Hs]; done.
Qed.

Lemma listing_respects_filters_witness :
  sample "squirtle" 314 44 48 65 50 64 43 false
    ∈ JsMap.values (pokemonStatsDB (loaded startup))
  ∧ passes AnyGeneration (Some (QStr "TRUE"))
           (sample "squirtle" 314 44 48 65 50 64 43 false)
  ∧ (Some (QStr "TRUE") = Some (QStr "true") →
       legendary (sample "squirtle" 314 44 48 65 50 64 43 false) = true)
  ∧ (∀ q, Some (QStr "TRUE") = Some q → q ≠ QStr "true" →
          legendary (sample "squirtle" 314 44 48 65 50 64 43 false) = false).
Proof.
  apply (listing_respects_filters startup (Some 3) (Some 2) AnyGeneration
           (Some (QStr "TRUE"))).
  left.
Defined.

End StatsApiSpec.

(** ** The images service *)

Module ImagesApiSpec.
Import Js Promise ImagesApi JsFacts JsMapFacts JsArrayFacts.

Lemma validate_from_keys i head images :
  (validate_from i head images).*1 = images.*1
  ∧ url <$> (validate_from i head images).*2 = images.*2.
Proof.
  revert i. induction images as [|[key u] images IH]; intros i; [done|].
  destruct (IH (S i)) as [Hkeys Hurls]. cbn.
  rewrite Hkeys, Hurls. split; [done|]. by destruct (head i).
Qed.

Lemma validate_from_lookup i head images j key v :
  validate_from i head images !! j = Some (key, v) →
  match head (i + j)%nat with
  | Fulfilled response =>
      status v = "available" ∧ error v = None
      ∧ content_type v = resp_headers response !! "content-type"
  | Rejected e =>
      status v = "unavailable" ∧ error v = Some (message e)
  end.
Proof.
  revert i j. induction images as [|[key' u] images IH]; intros i j; [done|].
  destruct j as [|j]; cbn.
  - intros [= <- <-]. rewrite Nat.add_0_r. by destruct (head i).
  - intros Hj. apply IH in Hj. by rewrite Nat.add_succ_r.
Qed.

(** X15. Validation keeps the images: the result has the same names in
    the same order and the same URLs, and the image of the [i]-th request
    is available exactly when that request succeeded; a failed request
    is recorded with its message and never fails the validation. *)
Theorem validation_keeps_images
    (head : nat → settled axios_response) (images : list (string * string)) :
  let validated := validateImageUrls head images in
  validated.*1 = images.*1
  ∧ url <$> validated.*2 = images.*2
  ∧ ∀ i key v,
      validated !! i = Some (key, v) →
      match head i with
      | Fulfilled response =>
          status v = "available" ∧ error v = None
          ∧ content_type v = resp_headers response !! "content-type"
      | Rejected e =>
          status v = "unavailable" ∧ error v = Some (message e)
      end.
Proof.
  cbn zeta. unfold validateImageUrls.
  destruct (validate_from_keys 0 head images) as [Hkeys Hurls].
  split; [done|]. split; [done|].
  intros i key v Hv. by apply validate_from_lookup in Hv.
Qed.

Lemma get_images_unfold pokemonImages pokemonName type format pokemonId
    today now head :
  pokemonName ≠ "" →
  get_images pokemonImages pokemonName type format pokemonId today now head
  = let found := JsMap.get (toLowerCase pokemonName) pokemonImages in
    let pokemonData :=
      default (generateFallbackImages pokemonName pokemonId today) found in
    let validatedImages := validateImageUrls head (images pokemonData) in
    let selected :=
      match default (QStr "all") type with
      | QStr "all" => Some ((λ kv, (kv.1, Some kv.2)) <$> validatedImages)
      | _ => key ← toString (default (QStr "all") type);
             Some (select_image key validatedImages)
      end in
    {| sent :=
         match selected with
         | Some selected =>
             {| statusCode := 200;
                content :=
                  Images (name pokemonData) selected
                    (<["format" := qval_json (default (QStr "json") format)]>
                       (<["requested_type" :=
                            qval_json (default (QStr "all") type)]>
                          (<["validation_timestamp" := JStr now]>
                             (spread ∅ (JObj (metadata pokemonData)))))) |}
         | None => {| statusCode := 500; content := Failed |}
         end;
       db_after :=
         match found with
         | Some _ => pokemonImages
         | None => JsMap.set (toLowerCase pokemonName) pokemonData pokemonImages
         end;
       called := (images pokemonData).*2 |}.
Proof.
  intros Hne. unfold get_images.
  rewrite PokeApiSpec.lower_key_nonempty by done.
  by destruct (JsMap.get _ pokemonImages).
Qed.

Lemma match_all {A : Type} (q : qval) (x y : A) :
  match q with
  | QStr "all" => x
  | _ => y
  end
  = if match q with QStr s => String.eqb s "all" | _ => false end
    then x else y.
Proof.
  destruct q as [s| |]; try done.
  destruct s as [|[[] [] [] [] [] [] [] []] s]; try done.
  destruct s as [|[[] [] [] [] [] [] [] []] s]; try done.
  destruct s as [|[[] [] [] [] [] [] [] []] s]; try done.
  by destruct s.
Qed.

(** The images of the reply: all of them for the type [all], and for
    another type the selection under its key, when the type converts to
    one. *)
Lemma selected_cases {A : Type} (q : qval) (x : A) (f : string → A) :
  match q with
  | QStr "all" => Some x
  | _ => key ← toString q; Some (f key)
  end
  = if match q with QStr s => String.eqb s "all" | _ => false end
    then Some x else f <$> toString q.
Proof. rewrite match_all. by destruct (toString q). Qed.

Lemma is_all (q : qval) :
  match q with QStr s => String.eqb s "all" | _ => false end = true
  ↔ q = QStr "all".
Proof.
  destruct q as [s| |]; try done.
  destruct (String.eqb_spec s "all") as [->|Hs]; [done|].
  split; [done|]. by intros [= ->].
Qed.

(** X16. The images generated for an unknown name are remembered: a later
    request for that name, in any letter case, whatever number it would
    draw and whatever type and format it asks for, checks the same URLs
    and leaves the database as it is; when the types of both requests
    convert to a property key, both are answered under the same name. *)
Theorem fallback_is_remembered
    (pokemonImages : list (string * image_data))
    (pokemonName pokemonName' : string) (type type' format format' : option qval)
    (pokemonId pokemonId' : Z) (today today' now now' : string)
    (head head' : nat → settled axios_response) :
  pokemonName ≠ "" →
  pokemonName' ≠ "" →
  toLowerCase pokemonName' = toLowerCase pokemonName →
  let first := get_images pokemonImages pokemonName type format
                          pokemonId today now head in
  let second := get_images (db_after first) pokemonName' type' format'
                           pokemonId' today' now' head' in
  called second = called first
  ∧ db_after second = db_after first
  ∧ (convertible type → convertible type' →
       ∃ name, reply_name (sent first) = Some name
               ∧ reply_name (sent second) = Some name).
Proof.
  intros Hne Hne' Hsame. cbn zeta.
  rewrite (get_images_unfold pokemonImages) by done.
  rewrite get_images_unfold by done. cbn zeta. cbn [db_after sent called].
  rewrite Hsame, !selected_cases.
  assert (JsMap.get (toLowerCase pokemonName)
            match JsMap.get (toLowerCase pokemonName) pokemonImages with
            | Some _ => pokemonImages
            | None =>
                JsMap.set (toLowerCase pokemonName)
                  (default (generateFallbackImages pokemonName pokemonId today)
                     (JsMap.get (toLowerCase pokemonName) pokemonImages))
                  pokemonImages
            end
          = Some (default (generateFallbackImages pokemonName pokemonId today)
                    (JsMap.get (toLowerCase pokemonName) pokemonImages)))
    as Hget.
  { destruct (JsMap.get (toLowerCase pokemonName) pokemonImages)
      as [found|] eqn:Hfound; [done|]. by rewrite get_set_eq. }
  rewrite Hget. cbn [default]. split; [done|]. split; [done|].
  intros [key Hkey]%(convertible_default "all")
         [key' Hkey']%(convertible_default "all").
  rewrite Hkey, Hkey'. eexists.
  by do 2 destruct (match _ with QStr s => String.eqb s "all" | _ => false end).
Qed.

Lemma fallback_is_remembered_witness :
  let first := get_images startup "Ditto" None None 132 "2024-01-15"
                 "T1" MoreSamples.head_third_missing in
  let second := get_images (db_after first) "DITTO" (Some (QStr "front_shiny"))
                  None 7 "2024-01-16" "T2" MoreSamples.head_third_missing in
  called second = called first
  ∧ db_after second = db_after first
  ∧ (convertible None → convertible (Some (QStr "front_shiny")) →
       ∃ name, reply_name (sent first) = Some name
               ∧ reply_name (sent second) = Some name).
Proof.
  apply (fallback_is_remembered startup "Ditto" "DITTO" None
           (Some (QStr "front_shiny")) None None 132 7
           "2024-01-15" "2024-01-16" "T1" "T2"
           MoreSamples.head_third_missing MoreSamples.head_third_missing);
    [discriminate|discriminate|reflexivity].
Defined.

Lemma select_image_small key validatedImages :
  (length (select_image key validatedImages) ≤ 1)%nat
  ∧ ∀ entry, entry ∈ select_image key validatedImages → entry.1 = key.
Proof.
  unfold select_image.
  destruct (assoc key validatedImages); [|destruct (String.eqb key "__proto__")];
    cbn; (split; [lia|]); intros entry Hentry.
  - by apply list_elem_of_singleton in Hentry as ->.
  - by apply list_elem_of_singleton in Hentry as ->.
  - by apply elem_of_nil in Hentry.
Qed.

(** X17. The reply to a request for images is 200 exactly when the
    requested type converts to a property key (every text and the default
    [all] do), and 500 otherwise, after the URLs have been checked.  The
    metadata of a 200 reply reports the requested format under [format],
    in place of the format of the images, and the requested type.  For
    the type [all] every checked URL is reported; for any other type at
    most one image is reported, under the key that was asked for. *)
Theorem requested_type_and_format
    (pokemonImages : list (string * image_data)) (pokemonName : string)
    (type format : option qval) (pokemonId : Z) (today now : string)
    (head : nat → settled axios_response) :
  pokemonName ≠ "" →
  let h := get_images pokemonImages pokemonName type format pokemonId
                      today now head in
  let checked :=
    validateImageUrls head
      (images (default (generateFallbackImages pokemonName pokemonId today)
                 (JsMap.get (toLowerCase pokemonName) pokemonImages))) in
  (statusCode (sent h) = 200 ↔ convertible type)
  ∧ (¬ convertible type →
       sent h = {| statusCode := 500; content := Failed |})
  ∧ called h = url <$> checked.*2
  ∧ (statusCode (sent h) = 200 →
       reply_metadata (sent h) !! "format"
       = Some (qval_json (default (QStr "json") format))
       ∧ reply_metadata (sent h) !! "requested_type"
         = Some (qval_json (default (QStr "all") type)))
  ∧ (default (QStr "all") type = QStr "all" →
       (reply_images (sent h)).*1 = checked.*1
       ∧ length (reply_images (sent h)) = length (called h))
  ∧ (∀ key, default (QStr "all") type ≠ QStr "all" →
       toString (default (QStr "all") type) = Some key →
       (length (reply_images (sent h)) ≤ 1)%nat
       ∧ ∀ entry, entry ∈ reply_images (sent h) → entry.1 = key).
Proof.
  intros Hne. cbn zeta. rewrite get_images_unfold by done. cbn zeta.
  cbn [sent called]. rewrite selected_cases.
  pose proof (convertible_default "all" type) as Hconv.
  destruct (validate_from_keys 0 head
              (images (default (generateFallbackImages pokemonName pokemonId today)
                 (JsMap.get (toLowerCase pokemonName) pokemonImages))))
    as (Hkeys & Hurls).
  fold (validateImageUrls head
          (images (default (generateFallbackImages pokemonName pokemonId today)
             (JsMap.get (toLowerCase pokemonName) pokemonImages))))
    in Hkeys, Hurls.
  rewrite Hurls.
  pose proof (is_all (default (QStr "all") type)) as Hq.
  destruct (match default (QStr "all") type with
            | QStr s => String.eqb s "all"
            | _ => false
            end).
  - assert (default (QStr "all") type = QStr "all") as Hall by by apply Hq.
    rewrite Hall in Hconv. cbn [statusCode reply_metadata reply_images content].
    split_and!; try done.
    + split; [intros _|done]. apply Hconv. by eexists.
    + intros Hno. destruct Hno. apply Hconv. by eexists.
    + intros _. split; [by rewrite lookup_insert_eq|].
      by rewrite lookup_insert_ne, lookup_insert_eq.
    + intros _. rewrite <- !list_fmap_compose. split; [done|].
      by rewrite <- Hurls, !length_fmap.
  - assert (default (QStr "all") type ≠ QStr "all") as Hall
      by (by intros ?%Hq).
    destruct (toString (default (QStr "all") type)) as [key|] eqn:Hkey;
      cbn [fmap option_fmap option_map statusCode reply_metadata
           reply_images content].
    + split_and!; try done.
      * split; [intros _|done]. apply Hconv. by eexists.
      * intros Hno. destruct Hno. apply Hconv. by eexists.
      * intros _. split; [by rewrite lookup_insert_eq|].
        by rewrite lookup_insert_ne, lookup_insert_eq.
      * intros key' _ [= <-]. apply select_image_small.
    + assert (¬ convertible type) as Hno
        by (intros [? [=]]%Hconv).
      split_and!; done.
Qed.

Lemma requested_type_and_format_witness :
  let h := get_images startup "Pikachu" (Some (QStr "front_shiny")) None 1
                      "2024-01-15" "T1" MoreSamples.head_third_missing in
  let checked :=
    validateImageUrls MoreSamples.head_third_missing
      (images (default (generateFallbackImages "Pikachu" 1 "2024-01-15")
                 (JsMap.get (toLowerCase "Pikachu") startup))) in
  (statusCode (sent h) = 200 ↔ convertible (Some (QStr "front_shiny")))
  ∧ (¬ convertible (Some (QStr "front_shiny")) →
       sent h = {| statusCode := 500; content := Failed |})
  ∧ called h = url <$> checked.*2
  ∧ (statusCode (sent h) = 200 →
       reply_metadata (sent h) !! "format" = Some (JStr "json")
       ∧ reply_metadata (sent h) !! "requested_type"
         = Some (JStr "front_shiny"))
  ∧ (QStr "front_shiny" = QStr "all" →
       (reply_images (sent h)).*1 = checked.*1
       ∧ length (reply_images (sent h)) = length (called h))
  ∧ (∀ key, QStr "front_shiny" ≠ QStr "all" →
       toString (QStr "front_shiny") = Some key →
       (length (reply_images (sent h)) ≤ 1)%nat
       ∧ ∀ entry, entry ∈ reply_images (sent h) → entry.1 = key).
Proof.
  apply (requested_type_and_format startup "Pikachu"
           (Some (QStr "front_shiny")) None 1 "2024-01-15" "T1"
           MoreSamples.head_third_missing).
  discriminate.
Defined.

Lemma length_split c s : (1 ≤ length (split c s))%nat.
Proof.
  induction s as [|c' s IH]; cbn; [lia|].
  destruct (Ascii.eqb c c'); cbn; [lia|].
  destruct (split c s); cbn in *; lia.
Qed.

(** X18. The listing of images never changes the database and never
    checks a URL, and it always reports the size of the whole database as
    [total].  For a text of names it returns one record per
    comma-separated piece, known or not; when [pokemon_names] is given
    more than once or as an object, the reply is 500. *)
Theorem listing_leaves_images_alone
    (pokemonImages : list (string * image_data)) (pokemon_names : option qval)
    (offset limit : option Z) (pokemonId : nat → Z) (today : string) :
  let h := list_images pokemonImages pokemon_names offset limit pokemonId
                       today in
  db_after h = pokemonImages
  ∧ called h = []
  ∧ (statusCode (sent h) = 200 →
       ∃ data, content (sent h)
               = Listing (Z.of_nat (length pokemonImages)) offset limit data)
  ∧ (∀ s, pokemon_names = Some (QStr s) → s ≠ "" →
          statusCode (sent h) = 200
          ∧ length (listed (sent h)) = length (split "," s))
  ∧ (∀ q, pokemon_names = Some q → (∀ s, q ≠ QStr s) →
          statusCode (sent h) = 500).
Proof.
  cbn zeta. unfold list_images.
  destruct pokemon_names as [[s| |]|]; cbn [truthy].
  - destruct (String.eqb_spec s "") as [->|Hs]; cbn [negb];
      split_and!; try done.
    + intros _. by eexists.
    + by intros s' [= <-] Hs'.
    + intros q [= <-] Hq. by destruct (Hq "").
    + intros _. by eexists.
    + intros s' [= <-] _. cbn. by rewrite length_imap, length_fmap.
    + intros q [= <-] Hq. by destruct (Hq s).
  - split_and!; try done.
  - split_and!; try done.
  - split_and!; try done. intros _. by eexists.
Qed.

End ImagesApiSpec.

(** ** Routing *)

Module ExpressSpec.
Import Js Express.

Lemma same_literal_lower s piece t :
  toLowerCase piece = t → same_literal s piece = String.eqb (toLowerCase s) t.
Proof. intros <-. reflexivity. Qed.


(** The routing table of the gateway, with the mount points split into
    their pieces. *)
Lemma gateway_routes_eq :
  gateway_routes
  = [ Verb "GET" [] ROOT_INFO;
      Use ["poke"; "search"] (PROXY_REQUEST "SEARCH_API");
      Use ["api"; "pokemon"] (PROXY_REQUEST "POKE_API");
      Use ["api"; "stats"] (PROXY_REQUEST "STATS_API");
      Use ["api"; "images"] (PROXY_REQUEST "IMAGES_API");
      Verb "GET" [Lit "status"] HEALTH_STATUS;
      Verb "GET" [Lit "metrics"] GET_METRICS;
      Verb "GET" [Lit "test"; Lit "load"; Param "pokemonName"] LOAD_TEST;
      Verb "GET" [Lit "health"] HEALTH_CHECK;
      Use [] NOT_FOUND ].
Proof. reflexivity. Qed.


(** Routing a path of the gateway whose first two pieces are known up to
    letter case. *)
Ltac route a b ta tb :=
  rewrite gateway_routes_eq;
  cbn [dispatch match_path match_prefix];
  rewrite ?(same_literal_lower _ a ta), ?(same_literal_lower _ b tb) by done;
  destruct (serves "GET" _); vm_compute; reflexivity.

Ltac literals :=
  repeat match goal with
         | |- context [same_literal ?s ?x] => destruct (same_literal s x)
         end.

Ltac differ :=
  vm_compute; split; (let H := fresh in intro H; discriminate H).

(** X19. In the images service the routes [/api/images/search] and
    [/api/images/stats] are never reached: whatever the method and the
    path, the router runs neither handler.  A [GET] of these two paths is
    served by the handler of [/api/images/:pokemonName], with [search] or
    [stats] as the name of the pokemon. *)
Theorem images_search_and_stats_unreachable
    (decode : string → option string) (method : string) (path : list string) :
  (∀ params,
     dispatch decode images_routes method path ≠ Run SEARCH_IMAGES params
     ∧ dispatch decode images_routes method path ≠ Run GET_IMAGE_STATS params)
  ∧ dispatch decode images_routes "GET" (pieces "/api/images/search")
    = match decode "search" with
      | Some name => Run GET_POKEMON_IMAGES [("pokemonName", name)]
      | None => BadParam
      end
  ∧ dispatch decode images_routes "GET" (pieces "/api/images/stats")
    = match decode "stats" with
      | Some name => Run GET_POKEMON_IMAGES [("pokemonName", name)]
      | None => BadParam
      end.
Proof.
  split; [|split].
  - intros params. unfold images_routes. cbn [dispatch].
    destruct (serves "GET" method); [|by split].
    destruct path as [|a [|b [|c [|d path]]]]; cbn [match_path].
    + by split.
    + literals; differ.
    + literals; differ.
    + destruct (same_literal "api" a); [|literals; differ].
      destruct (same_literal "images" b); [|literals; differ].
      destruct (String.eqb_spec c "") as [->|Hc];
        [destruct (same_literal "health" a); differ|].
      cbn [fmap option_fmap option_map].
      destruct (decode_params _ _); split; intro Heq; discriminate Heq.
    + literals; destruct (String.eqb c ""); differ.
  - vm_compute. by destruct (decode "search").
  - vm_compute. by destruct (decode "stats").
Qed.



End ExpressSpec.
